(** * main.py: resume -> specification -> portfolio site

    A shallow embedding of the text-processing core of [main.py]:
    the resume text extractor, the delimiter parser of the site
    synthesizer, the archive packager, the preview sanitizer and the
    session-state transitions of the two button handlers.

    Python values are modelled as follows.
    - [str] is a sequence of Unicode code points ([list N]).
    - [bytes] is a sequence of octets ([list byte]).
    - A call that may raise returns a [result]: [Ok v] or [Raise e].
    - External libraries (PyPDF2, python-docx, zipfile, the chat model)
      are interfaces whose operations are parameters of the code that
      calls them. *)

From Stdlib Require Import String Ascii.
From Stdlib Require Import Strings.Byte.
From Stdlib Require Import List NArith Arith Lia Bool.
Import ListNotations.

(** ** Python strings and exceptions *)

Module Py.

Definition codepoint := N.
Definition str := list codepoint.
Definition bytes := list byte.

(** An ASCII literal as a [str]. *)
Definition lit (s : string) : str :=
  List.map N_of_ascii (list_ascii_of_string s).

Inductive exn : Type :=
| ValueError
| IndexError
| UnicodeEncodeError
| UnicodeDecodeError
| LibraryError (what : string).

Inductive result (A : Type) : Type :=
| Ok (a : A)
| Raise (e : exn).

Arguments Ok {A} a.
Arguments Raise {A} e.

Definition bind {A B} (m : result A) (k : A -> result B) : result B :=
  match m with
  | Ok a => k a
  | Raise e => Raise e
  end.

Notation "x <- m ;; k" := (bind m (fun x => k))
  (at level 61, m at next level, right associativity).

(** Truthiness of a [str]: the empty string is false. *)
Definition truthy (s : str) : bool :=
  match s with
  | [] => false
  | _ :: _ => true
  end.

(** [pat] is a prefix of [s]. *)
Fixpoint starts_with (pat s : str) : bool :=
  match pat, s with
  | [], _ => true
  | _ :: _, [] => false
  | p :: pat', c :: s' => N.eqb p c && starts_with pat' s'
  end.

(** [s.endswith(suf)] *)
Definition endswith (s suf : str) : bool :=
  starts_with (rev suf) (rev s).

(** [sep.join(parts)] *)
Fixpoint join (sep : str) (parts : list str) : str :=
  match parts with
  | [] => []
  | [p] => p
  | p :: rest => p ++ sep ++ join sep rest
  end.

(** The scan behind [s.split(sep)] and [s.replace(old, new)] for a
    nonempty separator: walk the text from the left; at a position that
    is not inside an earlier match, test whether the separator starts
    there; a match closes the current piece and the next
    [length sep - 1] positions are skipped, so matches never overlap.
    [cur] is the current piece, reversed. *)
Fixpoint split_scan (sep : str) (skip : nat) (cur : str) (s : str)
  : list str :=
  match s with
  | [] => [rev cur]
  | c :: s' =>
      match skip with
      | S k => split_scan sep k cur s'
      | O =>
          if starts_with sep s
          then rev cur :: split_scan sep (length sep - 1) [] s'
          else split_scan sep 0 (c :: cur) s'
      end
  end.

(** [s.split(sep)]; an empty separator raises [ValueError]. *)
Definition split (s sep : str) : result (list str) :=
  match sep with
  | [] => Raise ValueError
  | _ :: _ => Ok (split_scan sep 0 [] s)
  end.

(** [parts[i]] *)
Definition index {A} (parts : list A) (i : nat) : result A :=
  match nth_error parts i with
  | Some p => Ok p
  | None => Raise IndexError
  end.

(** [str.isspace] on one code point: the ASCII table of CPython
    ([\t \n \v \f \r], [\x1c]-[\x1f], space) and the code points with the
    Unicode White_Space property or bidirectional type WS, B or S. *)
Definition isspace (c : codepoint) : bool :=
  (((9 <=? c) && (c <=? 13)) || ((28 <=? c) && (c <=? 32))
   || (c =? 133) || (c =? 160) || (c =? 5760)
   || ((8192 <=? c) && (c <=? 8202))
   || (c =? 8232) || (c =? 8233) || (c =? 8239) || (c =? 8287)
   || (c =? 12288))%N.

Fixpoint lstrip (s : str) : str :=
  match s with
  | [] => []
  | c :: s' => if isspace c then lstrip s' else s
  end.

Definition rstrip (s : str) : str := rev (lstrip (rev s)).

(** [s.strip()] *)
Definition strip (s : str) : str := rstrip (lstrip s).


(** Equality of strings, [a == b]. *)
Fixpoint str_eqb (a b : str) : bool :=
  match a, b with
  | [], [] => true
  | x :: a', y :: b' => N.eqb x y && str_eqb a' b'
  | _, _ => false
  end.

(** [x in xs] for a list of strings. *)
Definition str_in (x : str) (xs : list str) : bool :=
  existsb (str_eqb x) xs.

(** [s.lower()], one code point at a time.  The table is exact on every
    code point whose lowercase form contains an ASCII code point: the
    letters A-Z, U+0130 (which becomes [i] followed by U+0307) and
    U+212A (the Kelvin sign, which becomes [k]).  The lowercase form of
    any other code point is non-ASCII whatever it is; [main.py] only
    compares lowered names against ASCII suffixes, so those code points
    are left as they are. *)
Definition lower_char (c : codepoint) : str :=
  (if (65 <=? c) && (c <=? 90) then [c + 32]
   else if c =? 304 then [105; 775]
   else if c =? 8490 then [107]
   else [c])%N.

Definition lower (s : str) : str := flat_map lower_char s.

(** [x or ""] for an optional string. *)
Definition or_empty (x : option str) : str :=
  match x with
  | Some s => s
  | None => []
  end.

(** [s.replace(old, new)] for a nonempty [old]: the scan of [split_scan],
    copying the text and writing [new] at each match. *)
Fixpoint replace_scan (old new : str) (skip : nat) (s : str) : str :=
  match s with
  | [] => []
  | c :: s' =>
      match skip with
      | S k => replace_scan old new k s'
      | O =>
          if starts_with old s
          then new ++ replace_scan old new (length old - 1) s'
          else c :: replace_scan old new 0 s'
      end
  end.

(** [s.replace(old, new)]; an empty [old] matches before every code
    point and at the end. *)
Definition replace (s old new : str) : str :=
  match old with
  | [] => new ++ flat_map (fun c => c :: new) s
  | _ :: _ => replace_scan old new 0 s
  end.

Definition octet (n : N) : byte :=
  match Byte.of_N (n mod 256) with
  | Some b => b
  | None => x00
  end.

(** A surrogate code point, U+D800 to U+DFFF. *)
Definition is_surrogate (c : codepoint) : bool :=
  ((55296 <=? c) && (c <=? 57343))%N.

(** The UTF-8 form of one code point; lone surrogates are refused. *)
Definition encode_codepoint (c : codepoint) : result bytes :=
  (if c <? 128 then Ok [octet c]
   else if c <? 2048 then
     Ok [octet (N.lor 192 (N.shiftr c 6));
         octet (N.lor 128 (N.land c 63))]
   else if is_surrogate c then Raise UnicodeEncodeError
   else if c <? 65536 then
     Ok [octet (N.lor 224 (N.shiftr c 12));
         octet (N.lor 128 (N.land (N.shiftr c 6) 63));
         octet (N.lor 128 (N.land c 63))]
   else
     Ok [octet (N.lor 240 (N.shiftr c 18));
         octet (N.lor 128 (N.land (N.shiftr c 12) 63));
         octet (N.lor 128 (N.land (N.shiftr c 6) 63));
         octet (N.lor 128 (N.land c 63))])%N.

(** [s.encode("utf-8")] *)
Fixpoint encode_utf8 (s : str) : result bytes :=
  match s with
  | [] => Ok []
  | c :: s' =>
      b <- encode_codepoint c ;;
      bs <- encode_utf8 s' ;;
      Ok (b ++ bs)
  end.

(** A continuation octet, [10xxxxxx]. *)
Definition continuation (n : N) : bool := ((128 <=? n) && (n <? 192))%N.

(** [b.decode("utf-8")]: strict, it refuses stray and missing
    continuation octets, overlong forms, surrogates and code points from
    U+110000 on. *)
Fixpoint decode_utf8 (bs : bytes) : result str :=
  match bs with
  | [] => Ok []
  | b0 :: rest =>
      let n0 := Byte.to_N b0 in
      if (n0 <? 128)%N then
        s <- decode_utf8 rest ;; Ok (n0 :: s)
      else if ((194 <=? n0) && (n0 <? 224))%N then
        match rest with
        | b1 :: rest1 =>
            let n1 := Byte.to_N b1 in
            if continuation n1 then
              s <- decode_utf8 rest1 ;;
              Ok (((n0 - 192) * 64 + (n1 - 128))%N :: s)
            else Raise UnicodeDecodeError
        | _ => Raise UnicodeDecodeError
        end
      else if ((224 <=? n0) && (n0 <? 240))%N then
        match rest with
        | b1 :: b2 :: rest2 =>
            let n1 := Byte.to_N b1 in
            let n2 := Byte.to_N b2 in
            let c := ((n0 - 224) * 4096 + (n1 - 128) * 64 + (n2 - 128))%N in
            if continuation n1 && continuation n2
               && (2048 <=? c)%N && negb (is_surrogate c) then
              s <- decode_utf8 rest2 ;; Ok (c :: s)
            else Raise UnicodeDecodeError
        | _ => Raise UnicodeDecodeError
        end
      else if ((240 <=? n0) && (n0 <? 245))%N then
        match rest with
        | b1 :: b2 :: b3 :: rest3 =>
            let n1 := Byte.to_N b1 in
            let n2 := Byte.to_N b2 in
            let n3 := Byte.to_N b3 in
            let c := ((n0 - 240) * 262144 + (n1 - 128) * 4096
                      + (n2 - 128) * 64 + (n3 - 128))%N in
            if continuation n1 && continuation n2 && continuation n3
               && (65536 <=? c)%N && (c <? 1114112)%N then
              s <- decode_utf8 rest3 ;; Ok (c :: s)
            else Raise UnicodeDecodeError
        | _ => Raise UnicodeDecodeError
        end
      else Raise UnicodeDecodeError
  end.

End Py.

Import Py.

(** ** External libraries *)

(** PyPDF2 and python-docx, as far as [main.py] uses them:
    [PdfReader(io.BytesIO(b)).pages], [page.extract_text()],
    [Document(io.BytesIO(b)).paragraphs] and [p.text]. *)
Class DocLibs : Type := {
  Page : Type;
  PdfReader_pages : bytes -> result (list Page);
  Page_extract_text : Page -> result (option str);
  Paragraph : Type;
  Document_paragraphs : bytes -> result (list Paragraph);
  Paragraph_text : Paragraph -> str
}.

(** The chat model: [llm.invoke(messages).content] for a list of
    (role, text) messages.  Each call may answer anything, or fail. *)
Definition LLM : Type := list (str * str) -> result str.

Module zipfile.

(** An archive member: its name and its content. *)
Definition member : Type := (str * bytes)%type.

(** A member name the container stores as it is: at most 65535 code
    points, each an ASCII letter, digit, dot, dash or underscore. *)
Definition plain_name (name : str) : bool :=
  (N.of_nat (length name) <? 65536)%N
  && forallb (fun c =>
       ((48 <=? c) && (c <=? 57)) || ((65 <=? c) && (c <=? 90))
       || ((97 <=? c) && (c <=? 122))
       || (c =? 45) || (c =? 46) || (c =? 95))%N name.

(** The container format of the [zipfile] module: [write_archive] lays
    out the members in the order given (what closing a [ZipFile] opened
    with [mode="w"] leaves in its buffer), [read_archive] lists the
    members of an archive with their decompressed content, in archive
    order.  Timestamps and the other metadata of a member are not part
    of [member]. *)
Class Codec : Type := {
  write_archive : list member -> bytes;
  read_archive : bytes -> result (list member)
}.

(** The library's contract: what was written is what is read. *)
Definition lawful (C : Codec) : Prop :=
  forall ms : list member,
    Forall (fun m => plain_name (fst m) = true) ms ->
    read_archive (write_archive ms) = Ok ms.

(** [zipfile.ZipFile(buffer, mode="w")] on an empty buffer. *)
Record ZipFile : Type := { filelist : list member }.

Definition open_w : ZipFile := {| filelist := [] |}.

(** [zf.writestr(arcname, data)] with [data] a [str]: the text is
    encoded as UTF-8 and appended as a new member. *)
Definition writestr (zf : ZipFile) (arcname : str) (data : str)
  : result ZipFile :=
  content <- encode_utf8 data ;;
  Ok {| filelist := filelist zf ++ [(arcname, content)] |}.

(** Leaving the [with] block closes the archive; the buffer then holds
    the whole container. *)
Definition close {C : Codec} (zf : ZipFile) : bytes :=
  write_archive (filelist zf).

End zipfile.

(** ** Helpers: resume parsing (main.py, lines 21-50) *)

Definition NL : str := [10%N].

Record UploadedFile : Type := {
  name : str;
  type : str;
  content : bytes
}.

Section Extractor.

Context {L : DocLibs}.

(** The loop of [extract_text_from_pdf]:
    [for page in reader.pages: text_chunks.append(page.extract_text() or "")] *)
Fixpoint pdf_pages_loop (pages : list Page) (text_chunks : list str)
  : result (list str) :=
  match pages with
  | [] => Ok text_chunks
  | page :: rest =>
      t <- Page_extract_text page ;;
      pdf_pages_loop rest (text_chunks ++ [or_empty t])
  end.

Definition extract_text_from_pdf (file_bytes : bytes) : result str :=
  pages <- PdfReader_pages file_bytes ;;
  text_chunks <- pdf_pages_loop pages [] ;;
  Ok (join NL text_chunks).

Definition extract_text_from_docx (file_bytes : bytes) : result str :=
  paragraphs <- Document_paragraphs file_bytes ;;
  Ok (join NL (map Paragraph_text paragraphs)).

Definition PDF_MIME : str := lit "application/pdf".
Definition DOCX_MIME : str :=
  lit "application/vnd.openxmlformats-officedocument.wordprocessingml.document".
Definition MSWORD_MIME : str := lit "application/msword".

Definition extract_resume_text (uploaded_file : option UploadedFile)
  : result str :=
  match uploaded_file with
  | None => Ok []
  | Some f =>
      let file_bytes := content f in
      if str_eqb (type f) PDF_MIME
         || endswith (lower (name f)) (lit ".pdf")
      then extract_text_from_pdf file_bytes
      else if str_in (type f) [DOCX_MIME; MSWORD_MIME]
              || endswith (lower (name f)) (lit ".docx")
      then extract_text_from_docx file_bytes
      else Ok []
  end.

End Extractor.

(** ** Prompts and model calls (main.py, lines 52-155) *)

(** main.py, [RESUME_TO_SPEC_SYSTEM] *)
Definition RESUME_TO_SPEC_SYSTEM : str :=
  join NL [
    [];
    lit "You are an expert career coach and portfolio website strategist.";
    [];
    lit "Task: Read the full resume text provided by the user and produce a structured website specification";
    lit "for a personal portfolio.";
    [];
    lit "The output MUST be a well-structured description (not code) that clearly defines:";
    lit "- Name and headline/tagline";
    lit "- Short bio / about section (2" ++ [8211%N] ++ lit "3 sentences)";
    lit "- Skills (grouped by categories if possible)";
    lit "- Experience (roles, companies, dates, 2" ++ [8211%N] ++ lit "3 bullet points each)";
    lit "- Projects (name, brief description, tech stack, links if given)";
    lit "- Achievements / awards / certifications";
    lit "- Education";
    lit "- Contact info (email, phone, location, portfolio links if any)";
    lit "- Design style (e.g., modern, minimal, dark/light theme, preferred colors inferred from resume if any)";
    [];
    lit "Write this as a clear narrative and bullet points that an engineer could use";
    lit "to design a portfolio website.";
    []
  ].

(** main.py, [SPEC_TO_WEBSITE_SYSTEM] *)
Definition SPEC_TO_WEBSITE_SYSTEM : str :=
  join NL [
    [];
    lit "You are a senior frontend engineer and UI/UX expert.";
    [];
    lit "Goal:";
    lit "Generate a complete, production-ready static portfolio website based ONLY on the structured website";
    lit "specification provided by the user (not the raw resume).";
    [];
    lit "Requirements:";
    lit "- Use modern, semantic HTML5 structure (header, main, section, footer, etc.).";
    lit "- Add clear sections: hero, skills, experience, projects, education, achievements, contact, and any";
    lit "  extra sections mentioned in the specification.";
    lit "- Ensure the layout is responsive and mobile-friendly using flexbox or CSS grid (no CSS frameworks).";
    lit "- Use clean, readable class names and consistent indentation.";
    lit "- Do NOT include inline CSS or inline JavaScript inside the HTML.";
    [];
    lit "Styling:";
    lit "- Provide all styling in a separate CSS file.";
    lit "- Use a modern look with good spacing, hierarchy, and accessible color contrast.";
    lit "- Import a simple Google Font (e.g., " ++ [34%N] ++ lit "Poppins" ++ [34%N] ++ lit " or " ++ [34%N] ++ lit "Inter" ++ [34%N] ++ lit ") in the CSS.";
    lit "- Include hover states for buttons and links.";
    lit "- Respect any style or color hints present in the specification.";
    [];
    lit "Behavior (JavaScript):";
    lit "- Only write vanilla JavaScript.";
    lit "- If there is a navbar with internal links, implement smooth scrolling.";
    lit "- Add small, useful interactions if relevant (e.g., mobile nav toggle, simple fade-in animations,";
    lit "  FAQ accordion, etc.).";
    lit "- Do NOT use external JS libraries or frameworks.";
    [];
    lit "Output format (STRICT):";
    lit "Return your answer in EXACTLY this structure with no extra text, comments, or explanations:";
    [];
    lit "--html--";
    lit "[HTML CODE]";
    lit "--html--";
    lit "--css--";
    lit "[CSS CODE]";
    lit "--css--";
    lit "--js--";
    lit "[JS CODE]";
    lit "--js--";
    []
  ].

Definition build_spec_from_resume (llm : LLM) (resume_text : str)
  : result str :=
  llm [ (lit "system", RESUME_TO_SPEC_SYSTEM);
        (lit "user",
         lit "Here is the full resume text:" ++ NL ++ NL ++ resume_text) ].

Definition MARKER_HTML : str := Eval cbv in lit "--html--".
Definition MARKER_CSS : str := Eval cbv in lit "--css--".
Definition MARKER_JS : str := Eval cbv in lit "--js--".

(** The inner function of [build_website_from_spec]. *)
Definition extract_between (marker text : str) : result str :=
  parts <- split text marker ;;
  if length parts <? 3 then Ok []
  else
    p <- index parts 1 ;;
    Ok (strip p).

(** The dictionary [{"html": ..., "css": ..., "js": ...}]. *)
Record website : Type := {
  html : str;
  css : str;
  js : str
}.

(** [build_website_from_spec] from [raw = response.content] on
    (lines 141-155). *)
Definition parse_raw (raw : str) : result website :=
  html_code <- extract_between MARKER_HTML raw ;;
  css_code <- extract_between MARKER_CSS raw ;;
  js_code <- extract_between MARKER_JS raw ;;
  Ok {| html := html_code; css := css_code; js := js_code |}.

Definition build_website_from_spec (llm : LLM) (spec_text : str)
  : result website :=
  raw <- llm [ (lit "system", SPEC_TO_WEBSITE_SYSTEM);
               (lit "user",
                lit "Here is the structured website specification:"
                ++ NL ++ NL ++ spec_text) ] ;;
  parse_raw raw.

(** ** Archive packager (main.py, lines 157-164) *)

Definition create_zip_bytes {C : zipfile.Codec} (html css js : str)
  : result bytes :=
  let zf := zipfile.open_w in
  zf <- zipfile.writestr zf (lit "index.html") html ;;
  zf <- zipfile.writestr zf (lit "style.css") css ;;
  zf <- zipfile.writestr zf (lit "script.js") js ;;
  Ok (zipfile.close zf).

(** ** Preview sanitizer (main.py, lines 166-188) *)

(** main.py, [override_css] *)
Definition override_css : str :=
  join NL [
    [];
    lit "    <style>";
    lit "    body, html {";
    lit "        background-color: #ffffff !important;";
    lit "        color: #111111 !important;";
    lit "    }";
    lit "    * {";
    lit "        color: inherit !important;";
    lit "    }";
    lit "    a {";
    lit "        color: #1a73e8 !important;";
    lit "    }";
    lit "    </style>";
    lit "    "
  ].

Definition force_light_theme (html : str) : str :=
  lit "<!DOCTYPE html><html><head>" ++ override_css
  ++ lit "</head><body>" ++ html ++ lit "</body></html>".

Definition ANCHOR : str := Eval cbv in lit "<a ".

(** The text written after [<a ] by the link rewrite. *)
Definition ANCHOR_ATTRS : str :=
  Eval cbv in
    lit "target=" ++ [34%N] ++ lit "_blank" ++ [34%N]
    ++ lit " rel=" ++ [34%N] ++ lit "noopener noreferrer" ++ [34%N]
    ++ lit " ".

(** The first statement of [sanitize_html_for_preview]. *)
Definition rewrite_links (html : str) : str :=
  replace html ANCHOR (ANCHOR ++ ANCHOR_ATTRS).

Definition sanitize_html_for_preview (html : str) : str :=
  let html := rewrite_links html in
  let html := force_light_theme html in
  html.

(** ** Session state and the two button handlers (main.py, lines 190-256) *)

(** [st.session_state], with the defaults of lines 191-200. *)
Record SessionState : Type := {
  spec_text : str;
  html_code : str;
  css_code : str;
  js_code : str;
  zip_bytes : option bytes
}.

Definition initial_session : SessionState :=
  {| spec_text := []; html_code := []; css_code := []; js_code := [];
     zip_bytes := None |}.

(** What a run of the script does besides changing the session state:
    the messages it shows and the calls to the packager. *)
Inductive effect : Type :=
| Shown_error (message : string)
| Shown_success (message : string)
| Called_create_zip_bytes (html css js : str).

(** A piece of the script: it reads and writes the session state, leaves
    effects and may raise.  When it raises, the writes and effects made
    before stay. *)
Definition Script (A : Type) : Type :=
  SessionState -> SessionState * list effect * result A.

Definition ret {A} (a : A) : Script A := fun st => (st, [], Ok a).

Definition and_then {A B} (m : Script A) (k : A -> Script B) : Script B :=
  fun st =>
    match m st with
    | (st1, fx1, Ok a) =>
        match k a st1 with
        | (st2, fx2, r) => (st2, fx1 ++ fx2, r)
        end
    | (st1, fx1, Raise e) => (st1, fx1, Raise e)
    end.

Notation "x <~ m ;; k" := (and_then m (fun x => k))
  (at level 61, m at next level, right associativity).
Notation "m ;;; k" := (and_then m (fun _ => k))
  (at level 61, right associativity).

Definition get : Script SessionState := fun st => (st, [], Ok st).
Definition put (st : SessionState) : Script unit := fun _ => (st, [], Ok tt).
Definition emit (e : effect) : Script unit := fun st => (st, [e], Ok tt).
Definition call {A} (r : result A) : Script A := fun st => (st, [], r).

Definition set_spec_text (v : str) : Script unit :=
  st <~ get ;;
  put {| spec_text := v; html_code := html_code st;
         css_code := css_code st; js_code := js_code st;
         zip_bytes := zip_bytes st |}.

Definition set_html_code (v : str) : Script unit :=
  st <~ get ;;
  put {| spec_text := spec_text st; html_code := v;
         css_code := css_code st; js_code := js_code st;
         zip_bytes := zip_bytes st |}.

Definition set_css_code (v : str) : Script unit :=
  st <~ get ;;
  put {| spec_text := spec_text st; html_code := html_code st;
         css_code := v; js_code := js_code st;
         zip_bytes := zip_bytes st |}.

Definition set_js_code (v : str) : Script unit :=
  st <~ get ;;
  put {| spec_text := spec_text st; html_code := html_code st;
         css_code := css_code st; js_code := v;
         zip_bytes := zip_bytes st |}.

Definition set_zip_bytes (v : option bytes) : Script unit :=
  st <~ get ;;
  put {| spec_text := spec_text st; html_code := html_code st;
         css_code := css_code st; js_code := js_code st;
         zip_bytes := v |}.

(** What the user did before one run of the script. *)
Record Interaction : Type := {
  uploaded_resume : option UploadedFile;
  generate_spec_btn : bool;
  generate_site_btn : bool;
  llm : LLM
}.

Section Handlers.

Context {L : DocLibs} {C : zipfile.Codec}.

(** Lines 221-232. *)
Definition on_generate_spec (i : Interaction) : Script unit :=
  match uploaded_resume i with
  | None => emit (Shown_error "Please upload a resume first.")
  | Some f =>
      resume_text <~ call (extract_resume_text (Some f)) ;;
      (if negb (truthy (strip resume_text))
       then emit (Shown_error
         "Could not extract text from the uploaded file. Check the format.")
       else
         spec <~ call (build_spec_from_resume (llm i) resume_text) ;;
         set_spec_text spec) ;;;
      emit (Shown_success "Website specification generated successfully.")
  end.

(** Lines 245-256. *)
Definition on_generate_site (i : Interaction) : Script unit :=
  st <~ get ;;
  website <~ call (build_website_from_spec (llm i) (spec_text st)) ;;
  set_html_code (html website) ;;;
  set_css_code (css website) ;;;
  set_js_code (js website) ;;;
  (if truthy (html website) && truthy (css website) && truthy (js website)
   then
     emit (Called_create_zip_bytes (html website) (css website) (js website)) ;;;
     z <~ call (create_zip_bytes (html website) (css website) (js website)) ;;
     set_zip_bytes (Some z)
   else ret tt) ;;;
  emit (Shown_success "Website source code generated.").

(** One run of the script, top to bottom, as far as it touches the
    session state (lines 212-256).  The second button is drawn, and can
    have been pressed, only when a specification is stored. *)
Definition run_script (i : Interaction) : Script unit :=
  (if generate_spec_btn i then on_generate_spec i else ret tt) ;;;
  st <~ get ;;
  if truthy (spec_text st) then
    if generate_site_btn i then on_generate_site i else ret tt
  else ret tt.

(** The session states a user can bring about. *)
Inductive reachable : SessionState -> Prop :=
| reachable_initial : reachable initial_session
| reachable_run (i : Interaction) (st : SessionState) :
    reachable st -> reachable (fst (fst (run_script i st))).

End Handlers.

(** ** Vocabulary of the properties *)

(** [s.find(pat)]: the least position at which [pat] occurs in [s]. *)
Fixpoint find (pat s : str) : option nat :=
  if starts_with pat s then Some 0
  else
    match s with
    | [] => None
    | _ :: s' => option_map S (find pat s')
    end.

(** [pat] occurs in [s] at position [k]. *)
Definition occurs_at (pat : str) (k : nat) (s : str) : Prop :=
  starts_with pat (skipn k s) = true.

(** Position of the first occurrence of [pat] in [s]. *)
Definition first_occurrence (pat s : str) : option nat := find pat s.

(** Position of the second occurrence.  Occurrences are counted from the
    left without overlap, as [str.count], [str.split] and [str.replace]
    do: the second one is the first that starts at or after the end of
    the first. *)
Definition second_occurrence (pat s : str) : option nat :=
  match find pat s with
  | None => None
  | Some i =>
      option_map (fun d => i + length pat + d)
                 (find pat (skipn (i + length pat) s))
  end.

(** [s[lo:hi]] *)
Definition slice (s : str) (lo hi : nat) : str :=
  firstn (hi - lo) (skipn lo s).

(** The text between the occurrence of [pat] at [i] and the one at [j]. *)
Definition segment_between (pat s : str) (i j : nat) : str :=
  slice s (i + length pat) j.

(** Number of positions of [s] at which the nonempty [pat] occurs. *)
Fixpoint count_occurrences (pat s : str) : nat :=
  match s with
  | [] => 0
  | _ :: s' => (if starts_with pat s then 1 else 0) + count_occurrences pat s'
  end.

(** Number of code points of [s] equal to [c]. *)
Definition count_char (c : codepoint) (s : str) : nat :=
  count_occurrences [c] s.

(** A Unicode scalar value: a code point below U+110000, as every code
    point of a [str] is, that is not a surrogate. *)
Definition is_scalar (c : codepoint) : bool :=
  ((c <? 1114112) && negb (is_surrogate c))%N.

(** The strings UTF-8 can encode: those without lone surrogates. *)
Definition encodable (s : str) : bool := forallb is_scalar s.

(** The four forms of a code point, by base-64 digits. *)
Inductive utf8_form (c : codepoint) : bytes -> Prop :=
| form_1 : (c < 128)%N -> utf8_form c [octet c]
| form_2 (a b : N) :
    (c = 64 * a + b)%N -> (2 <= a < 32)%N -> (b < 64)%N ->
    utf8_form c [octet (192 + a); octet (128 + b)]
| form_3 (a m b : N) :
    (c = 4096 * a + 64 * m + b)%N -> (a < 16)%N -> (m < 64)%N -> (b < 64)%N ->
    (2048 <= c)%N -> is_surrogate c = false ->
    utf8_form c [octet (224 + a); octet (128 + m); octet (128 + b)]
| form_4 (a m1 m2 b : N) :
    (c = 262144 * a + 4096 * m1 + 64 * m2 + b)%N ->
    (a < 5)%N -> (m1 < 64)%N -> (m2 < 64)%N -> (b < 64)%N ->
    (65536 <= c < 1114112)%N ->
    utf8_form c [octet (240 + a); octet (128 + m1); octet (128 + m2);
                 octet (128 + b)].

(** No nonempty end of [a] shorter than [pat] is a beginning of [pat]:
    no occurrence of [pat] can start inside [a] and run past its end. *)
Fixpoint closed_on_the_right (pat a : str) : bool :=
  match a with
  | [] => true
  | _ :: a' =>
      ((length pat <=? length a) || negb (starts_with a pat))
      && closed_on_the_right pat a'
  end.

(** No proper nonempty end of [pat] is a beginning of [b]: no occurrence
    of [pat] can start before [b] and end inside it. *)
Definition closed_on_the_left (pat b : str) : bool :=
  forallb (fun k => negb (starts_with (skipn k pat) b))
          (List.seq 1 (length pat - 1)).

Definition STYLE_OPEN : str := Eval cbv in lit "<style".
Definition STYLE_CLOSE : str := Eval cbv in lit "</style>".

(** The document shell of [force_light_theme] around the fragment. *)
Definition shell_before : str :=
  lit "<!DOCTYPE html><html><head>" ++ override_css ++ lit "</head><body>".
Definition shell_after : str := lit "</body></html>".

Definition all_nonempty (w : website) : bool :=
  truthy (html w) && truthy (css w) && truthy (js w).

(** How many of the three segments are empty. *)
Definition failed_segments (w : website) : nat :=
  (if truthy (html w) then 0 else 1)
  + (if truthy (css w) then 0 else 1)
  + (if truthy (js w) then 0 else 1).

Definition called_packager (fx : list effect) : Prop :=
  exists h c j, In (Called_create_zip_bytes h c j) fx.

(** The three parts of what a piece of script leaves. *)
Definition state_of {A} (x : SessionState * list effect * result A)
  : SessionState := fst (fst x).
Definition effects_of {A} (x : SessionState * list effect * result A)
  : list effect := snd (fst x).
Definition result_of {A} (x : SessionState * list effect * result A)
  : result A := snd x.

(** The stored archive, if any, is what the packager returned for three
    nonempty texts. *)
Definition packaged {C : zipfile.Codec} (st : SessionState) : Prop :=
  match zip_bytes st with
  | None => True
  | Some z =>
      exists h c j : str,
        h <> [] /\ c <> [] /\ j <> [] /\ create_zip_bytes h c j = Ok z
  end.

(** [m] keeps the invariant [I] of the session state, also when it
    raises, and a value it returns satisfies [Q]. *)
Definition keeps {A} (I : SessionState -> Prop) (m : Script A)
    (Q : A -> Prop) : Prop :=
  forall st, I st ->
    I (state_of (m st)) /\ (forall a, result_of (m st) = Ok a -> Q a).

(** The stored archive is out of date: it was built from three texts of
    which the first is not the markup now stored. *)
Definition stale {C : zipfile.Codec} (st : SessionState) : Prop :=
  exists (h c j : str) (z : bytes),
    zip_bytes st = Some z /\ create_zip_bytes h c j = Ok z /\
    h <> html_code st.

(** A model that always answers [raw]. *)
Definition answering (raw : str) : LLM := fun _ => Ok raw.

(** A model that always fails. *)
Definition failing : LLM := fun _ => Raise (LibraryError "model call failed").

(** Pressing the second button while the model fails. *)
Definition press_generate_site_failing : Interaction :=
  {| uploaded_resume := None; generate_spec_btn := false;
     generate_site_btn := true; llm := failing |}.

(** Pressing the second button while the model answers [raw]. *)
Definition press_generate_site (raw : str) : Interaction :=
  {| uploaded_resume := None; generate_spec_btn := false;
     generate_site_btn := true; llm := answering raw |}.

(** Pressing the first button with a file uploaded. *)
Definition press_generate_spec (f : UploadedFile) (answer : str)
  : Interaction :=
  {| uploaded_resume := Some f; generate_spec_btn := true;
     generate_site_btn := false; llm := answering answer |}.

(** A session in which a specification is stored. *)
Definition session_with_spec : SessionState :=
  {| spec_text := lit "Jane Doe, Software Engineer";
     html_code := []; css_code := []; js_code := []; zip_bytes := None |}.

(** ** Example inputs and example libraries *)

(** A response in the format the prompt asks for. *)
Definition sample_raw : str :=
  join NL [
    lit "--html--";
    lit "<h1>Jane Doe</h1>";
    lit "--html--";
    lit "--css--";
    lit "h1 { color: teal; }";
    lit "--css--";
    lit "--js--";
    lit "console.log(1);";
    lit "--js--";
    []
  ].

(** A response whose stylesheet segment is not closed. *)
Definition sample_raw_no_css : str :=
  join NL [
    lit "--html--";
    lit "<h1>Jane Doe</h1>";
    lit "--html--";
    lit "--css--";
    lit "h1 { color: teal; }";
    lit "--js--";
    lit "console.log(1);";
    lit "--js--";
    []
  ].

(** A small container format that keeps the contract of [zipfile.Codec]:
    every octet is written after a [x01] tag; [x00 x00] ends a name and
    [x00 x01] ends a member. *)
Definition tagged (bs : bytes) : bytes := flat_map (fun b => [x01; b]) bs.

Definition example_write_member (m : zipfile.member) : bytes :=
  tagged (map octet (fst m)) ++ [x00; x00] ++ tagged (snd m) ++ [x00; x01].

Definition bad_archive {A} : result A := Raise (LibraryError "BadZipFile").

Fixpoint example_read (bs : bytes) (arcname : option bytes) (cur : bytes)
    (done : list zipfile.member) : result (list zipfile.member) :=
  match bs with
  | [] =>
      match arcname, cur with
      | None, [] => Ok (rev done)
      | _, _ => bad_archive
      end
  | [_] => bad_archive
  | tag :: b :: rest =>
      if Byte.eqb tag x01 then example_read rest arcname (b :: cur) done
      else if Byte.eqb tag x00 then
        match arcname with
        | None =>
            if Byte.eqb b x00 then example_read rest (Some (rev cur)) [] done
            else bad_archive
        | Some n =>
            if Byte.eqb b x01
            then example_read rest None [] ((map Byte.to_N n, rev cur) :: done)
            else bad_archive
        end
      else bad_archive
  end.

Definition example_codec : zipfile.Codec :=
  {| zipfile.write_archive := flat_map example_write_member;
     zipfile.read_archive := fun bs => example_read bs None [] [] |}.

(** Stand-ins for the two document libraries.  A "PDF" is a sequence of
    pages separated by form feeds, a "DOCX" a sequence of paragraphs
    separated by line feeds, both in Latin-1; a page without octets has
    no text layer; an empty file is refused. *)
Fixpoint chunks_on (d : byte) (bs : bytes) (cur : bytes) : list bytes :=
  match bs with
  | [] => [rev cur]
  | b :: bs' =>
      if Byte.eqb b d then rev cur :: chunks_on d bs' []
      else chunks_on d bs' (b :: cur)
  end.

Definition example_open (d : byte) (bs : bytes) : result (list bytes) :=
  match bs with
  | [] => Raise (LibraryError "EmptyFileError")
  | _ :: _ => Ok (chunks_on d bs [])
  end.

Definition example_libs : DocLibs :=
  {| Page := bytes;
     PdfReader_pages := example_open x0c;
     Page_extract_text := fun p =>
       Ok (match p with [] => None | _ :: _ => Some (map Byte.to_N p) end);
     Paragraph := bytes;
     Document_paragraphs := example_open x0a;
     Paragraph_text := map Byte.to_N |}.

(** Octets of an ASCII literal. *)
Definition blit (s : string) : bytes := map octet (lit s).

(** A Word document uploaded under a name that ends in [.pdf]. *)
Definition docx_named_pdf : UploadedFile :=
  {| name := lit "resume.pdf";
     type := DOCX_MIME;
     content := blit "Jane" ++ [x0c] ++ blit "Doe" |}.

(** A legacy Word document. *)
Definition legacy_doc : UploadedFile :=
  {| name := lit "resume.doc";
     type := MSWORD_MIME;
     content := blit "Jane" ++ [x0a] ++ blit "Doe" |}.

(** A Word document under its usual name and type. *)
Definition docx_resume : UploadedFile :=
  {| name := lit "Resume.DOCX";
     type := DOCX_MIME;
     content := blit "Jane Doe" ++ [x0a] ++ blit "Software Engineer" |}.

(** A three-page "PDF" whose second page has no text. *)
Definition three_pages : bytes := blit "one" ++ [x0c; x0c] ++ blit "three".

(** A second response: other markup, and the stylesheet segment not
    closed. *)
Definition sample_raw_again : str :=
  join NL [
    lit "--html--";
    lit "<h1>J. Doe</h1>";
    lit "--html--";
    lit "--css--";
    lit "h1 { color: navy; }";
    lit "--js--";
    lit "console.log(2);";
    lit "--js--";
    []
  ].

(** A session: a resume is uploaded and turned into a specification,
    then the site is generated, then generated again. *)
Definition after_spec : SessionState :=
  state_of (run_script (L := example_libs) (C := example_codec)
              (press_generate_spec docx_resume
                 (lit "Jane Doe, Software Engineer"))
              initial_session).

Definition after_site : SessionState :=
  state_of (run_script (L := example_libs) (C := example_codec)
              (press_generate_site sample_raw) after_spec).

Definition after_second_site : SessionState :=
  state_of (run_script (L := example_libs) (C := example_codec)
              (press_generate_site sample_raw_again) after_site).

(** ** The right column (main.py, lines 258-279) *)

(** What the right column draws. *)
Inductive widget : Type :=
| Subheader (text : string)
| Html_component (document : str) (height : N) (scrolling : bool)
| Info (text : string)
| Download_button (label : string) (data : bytes) (file_name mime : string)
| Caption (text : string).

Definition right_column (st : SessionState) : list widget :=
  [Subheader "2. Website Preview"]
  ++ (if truthy (html_code st)
      then [Html_component (sanitize_html_for_preview (html_code st))
                           600 true]
      else [Info "Website preview will appear here after generation."])
  ++ [Subheader "3. Download Source Code"]
  ++ (match zip_bytes st with
      | Some (b :: data) =>
          [Download_button "Download Website ZIP" (b :: data)
                           "portfolio_website.zip" "application/zip"]
      | _ => [Caption "Generate the website to enable the download button."]
      end).

(** ** Further vocabulary *)

(** [x] is the code point [l], or the capital letter of which [l] is the
    small one. *)
Definition ci_match (x l : codepoint) : Prop :=
  x = l \/ ((65 <= x)%N /\ (x <= 90)%N /\ (x + 32)%N = l).

(** A code point that [lower] gives only for itself and, when it is a
    small ASCII letter, for its capital. *)
Definition lowercase_target (l : codepoint) : Prop :=
  ((l < 65)%N \/ (90 < l)%N) /\ l <> 107%N /\ l <> 304%N /\ l <> 775%N
  /\ l <> 8490%N.

(** One block of the output format of [SPEC_TO_WEBSITE_SYSTEM]
    (main.py, lines 112-120), and the three blocks in a row. *)
Definition block (marker text : str) : str :=
  marker ++ NL ++ text ++ NL ++ marker ++ NL.

Definition format_response (h c j : str) : str :=
  block MARKER_HTML h ++ block MARKER_CSS c ++ block MARKER_JS j.

(** The three stored texts have no whitespace at either end. *)
Definition trimmed_session (st : SessionState) : Prop :=
  strip (html_code st) = html_code st /\
  strip (css_code st) = css_code st /\
  strip (js_code st) = js_code st.

(** The session state after [st.session_state.spec_text = v]. *)
Definition with_spec_text (st : SessionState) (v : str) : SessionState :=
  {| spec_text := v; html_code := html_code st; css_code := css_code st;
     js_code := js_code st; zip_bytes := zip_bytes st |}.

(** The session state after the three assignments of lines 248-250. *)
Definition with_site (st : SessionState) (w : website) : SessionState :=
  {| spec_text := spec_text st; html_code := html w; css_code := css w;
     js_code := js w; zip_bytes := zip_bytes st |}.

(** The text holds a surrogate code point. *)
Definition has_surrogate (s : str) : bool := existsb is_surrogate s.

(** ** Further example inputs *)

(** A document library whose text extraction refuses a page that holds
    the octet [xff]. *)
Definition strict_libs : DocLibs :=
  {| Page := bytes;
     PdfReader_pages := example_open x0c;
     Page_extract_text := fun p =>
       if existsb (Byte.eqb xff) p
       then Raise (LibraryError "PdfReadError")
       else Ok (match p with [] => None | _ :: _ => Some (map Byte.to_N p) end);
     Paragraph := bytes;
     Document_paragraphs := example_open x0a;
     Paragraph_text := map Byte.to_N |}.

(** A three-page "PDF" whose second page cannot be read. *)
Definition damaged_pages : bytes :=
  blit "one" ++ [x0c; xff; x0c] ++ blit "three".

(** A Word document that holds nothing but blanks. *)
Definition blank_resume : UploadedFile :=
  {| name := lit "blank.docx";
     type := DOCX_MIME;
     content := blit "  " ++ [x0a] ++ blit " " |}.

(** A response whose stylesheet segment is blank. *)
Definition sample_raw_blank_css : str :=
  join NL [
    lit "--html--";
    lit "<h1>Jane Doe</h1>";
    lit "--html--";
    lit "--css--";
    lit "   ";
    lit "--css--";
    lit "--js--";
    lit "console.log(1);";
    lit "--js--";
    []
  ].

(** A response whose markup holds a lone surrogate. *)
Definition sample_raw_surrogate : str :=
  join NL [
    lit "--html--";
    lit "<h1>" ++ [55296%N] ++ lit "</h1>";
    lit "--html--";
    lit "--css--";
    lit "h1 { color: teal; }";
    lit "--css--";
    lit "--js--";
    lit "console.log(1);";
    lit "--js--";
    []
  ].

(** The model's answer wrapped in a sentence of its own. *)
Definition chatty_raw : str :=
  lit "Here is the stylesheet." ++ NL
  ++ lit "--css--" ++ NL ++ lit "p { margin: 0; }" ++ NL ++ lit "--css--"
  ++ NL ++ lit "Enjoy!".

(** * Properties *)

(** ** Prefixes and occurrences *)

Lemma starts_with_app (pat r : str) : starts_with pat (pat ++ r) = true.
Proof.
  induction pat as [|p pat IH]; simpl; [reflexivity|].
  now rewrite N.eqb_refl, IH.
Qed.

Lemma starts_with_inv (pat s : str) :
  starts_with pat s = true -> s = pat ++ skipn (length pat) s.
Proof.
  revert s; induction pat as [|p pat IH]; intros s H; simpl in *.
  - reflexivity.
  - destruct s as [|c s]; [discriminate|].
    apply andb_true_iff in H as [Hc Hs].
    apply N.eqb_eq in Hc; subst c.
    simpl; f_equal; auto.
Qed.

Lemma starts_with_length (pat s : str) :
  starts_with pat s = true -> length pat <= length s.
Proof.
  intros H; apply starts_with_inv in H.
  rewrite H, length_app; lia.
Qed.

(** A prefix test only looks at the first [length pat] code points. *)
Lemma starts_with_app_long (pat a b : str) :
  length pat <= length a ->
  starts_with pat (a ++ b) = starts_with pat a.
Proof.
  revert a; induction pat as [|p pat IH]; intros a Hlen; simpl in *.
  - reflexivity.
  - destruct a as [|c a]; simpl in *; [lia|].
    rewrite IH by lia; reflexivity.
Qed.

Lemma starts_with_app_mismatch (pat a b : str) :
  length a < length pat ->
  starts_with a pat = false ->
  starts_with pat (a ++ b) = false.
Proof.
  revert a; induction pat as [|p pat IH]; intros a Hlen Hne; simpl in *.
  - lia.
  - destruct a as [|c a]; simpl in *; [discriminate|].
    rewrite N.eqb_sym.
    destruct (N.eqb c p); simpl in *; [apply IH; [lia|assumption]|reflexivity].
Qed.

Lemma starts_with_app_straddle (pat a b : str) :
  length a < length pat ->
  starts_with pat (a ++ b) = true ->
  starts_with (skipn (length a) pat) b = true.
Proof.
  revert a; induction pat as [|p pat IH]; intros a Hlen H; simpl in *.
  - lia.
  - destruct a as [|c a]; simpl in *; [assumption|].
    apply andb_true_iff in H as [_ H].
    apply IH; [lia|assumption].
Qed.

Lemma starts_with_short (pat s : str) :
  length s < length pat -> starts_with pat s = false.
Proof.
  intros Hlen; destruct (starts_with pat s) eqn:E; [|reflexivity].
  apply starts_with_length in E; lia.
Qed.

Lemma occurs_at_0 (pat s : str) :
  occurs_at pat 0 s <-> starts_with pat s = true.
Proof. unfold occurs_at; simpl; tauto. Qed.

Lemma occurs_at_S (pat : str) (k : nat) (c : codepoint) (s : str) :
  occurs_at pat (S k) (c :: s) <-> occurs_at pat k s.
Proof. unfold occurs_at; simpl; tauto. Qed.

(** [find] returns the least position of an occurrence. *)
Lemma find_occurs (pat s : str) (i : nat) :
  find pat s = Some i -> occurs_at pat i s /\ i <= length s.
Proof.
  revert i; induction s as [|c s IH]; intros i; simpl.
  - destruct (starts_with pat []) eqn:E; [|discriminate].
    intros [= <-]; split; [apply occurs_at_0; assumption|simpl; lia].
  - destruct (starts_with pat (c :: s)) eqn:E.
    + intros [= <-]; split; [apply occurs_at_0; assumption|lia].
    + destruct (find pat s) as [j|]; simpl; [|discriminate].
      intros [= <-]; destruct (IH j eq_refl) as [Hj Hlen].
      split; [apply occurs_at_S; assumption|lia].
Qed.

Lemma find_least (pat s : str) (i : nat) :
  find pat s = Some i -> forall k, k < i -> ~ occurs_at pat k s.
Proof.
  revert i; induction s as [|c s IH]; intros i; simpl.
  - destruct (starts_with pat []); [|discriminate].
    intros [= <-] k Hk; lia.
  - destruct (starts_with pat (c :: s)) eqn:E.
    + intros [= <-] k Hk; lia.
    + destruct (find pat s) as [j|]; simpl; [|discriminate].
      intros [= <-] [|k] Hk.
      * rewrite occurs_at_0; congruence.
      * rewrite occurs_at_S; apply (IH j eq_refl); lia.
Qed.

Lemma find_None (pat s : str) :
  find pat s = None -> forall k, ~ occurs_at pat k s.
Proof.
  induction s as [|c s IH]; simpl.
  - destruct (starts_with pat []) eqn:E; [discriminate|].
    intros _ k; unfold occurs_at; rewrite skipn_nil; congruence.
  - destruct (starts_with pat (c :: s)) eqn:E; [discriminate|].
    destruct (find pat s) as [j|]; simpl; [discriminate|].
    intros _ [|k].
    + rewrite occurs_at_0; congruence.
    + rewrite occurs_at_S; apply IH; reflexivity.
Qed.

(** The text splits at an occurrence. *)
Lemma occurs_at_split (pat s : str) (i : nat) :
  occurs_at pat i s -> i <= length s ->
  s = firstn i s ++ pat ++ skipn (i + length pat) s.
Proof.
  unfold occurs_at; intros H Hi.
  apply starts_with_inv in H.
  rewrite <- (firstn_skipn i s) at 1.
  f_equal. rewrite H at 1. f_equal.
  rewrite skipn_skipn. f_equal; lia.
Qed.

(** ** The scan of [split] *)

Lemma split_scan_skip (sep x r cur : str) :
  split_scan sep (length x) cur (x ++ r) = split_scan sep 0 cur r.
Proof.
  induction x as [|c x IH]; simpl; [reflexivity|assumption].
Qed.

(** At a match the current piece is closed and the scan goes on after
    the separator. *)
Lemma split_scan_match (sep r cur : str) :
  sep <> [] ->
  split_scan sep 0 cur (sep ++ r) = rev cur :: split_scan sep 0 [] r.
Proof.
  intros Hsep. destruct sep as [|c sep]; [congruence|].
  change ((c :: sep) ++ r) with (c :: (sep ++ r)).
  cbn [split_scan].
  change (c :: sep ++ r) with ((c :: sep) ++ r).
  rewrite starts_with_app.
  f_equal.
  replace (length (c :: sep) - 1) with (length sep) by (simpl; lia).
  apply split_scan_skip.
Qed.

(** Text without a match goes to the current piece. *)
Lemma split_scan_before (sep p t cur : str) :
  (forall k, k < length p -> ~ occurs_at sep k (p ++ t)) ->
  split_scan sep 0 cur (p ++ t) = split_scan sep 0 (rev p ++ cur) t.
Proof.
  revert cur; induction p as [|c p IH]; intros cur H; simpl.
  - reflexivity.
  - destruct (starts_with sep (c :: p ++ t)) eqn:E.
    + exfalso; apply (H 0); [simpl; lia|apply occurs_at_0; assumption].
    + rewrite IH.
      * now rewrite <- app_assoc.
      * intros k Hk Hocc; apply (H (S k)); [simpl; lia|].
        apply occurs_at_S; assumption.
Qed.

Lemma split_scan_no_match (sep s cur : str) :
  (forall k, ~ occurs_at sep k s) ->
  split_scan sep 0 cur s = [rev cur ++ s].
Proof.
  intros H.
  rewrite <- (app_nil_r s) at 1.
  rewrite split_scan_before.
  - simpl. now rewrite rev_app_distr, rev_involutive.
  - intros k _; rewrite app_nil_r; apply H.
Qed.

Lemma split_scan_length (sep : str) (skip : nat) (cur s : str) :
  1 <= length (split_scan sep skip cur s).
Proof.
  revert skip cur; induction s as [|c s IH]; intros skip cur; simpl.
  - lia.
  - destruct skip; [|apply IH].
    destruct (starts_with sep (c :: s)); simpl; [lia|apply IH].
Qed.

(** The loop of [split]: cut at the first occurrence, go on after it. *)
Lemma split_scan_find (sep s : str) :
  sep <> [] ->
  split_scan sep 0 [] s =
  match find sep s with
  | None => [s]
  | Some i => firstn i s :: split_scan sep 0 [] (skipn (i + length sep) s)
  end.
Proof.
  intros Hsep. destruct (find sep s) as [i|] eqn:F.
  - destruct (find_occurs _ _ _ F) as [Hocc Hlen].
    pose proof (find_least _ _ _ F) as Hmin.
    rewrite (occurs_at_split _ _ _ Hocc Hlen) at 1.
    rewrite split_scan_before.
    + rewrite split_scan_match by assumption.
      now rewrite app_nil_r, rev_involutive.
    + intros k Hk. rewrite <- (occurs_at_split _ _ _ Hocc Hlen).
      apply Hmin. rewrite length_firstn in Hk; lia.
  - rewrite split_scan_no_match; [reflexivity|].
    apply find_None; assumption.
Qed.

(** ** Whitespace *)

Lemma lstrip_no_space (c : codepoint) (s : str) :
  isspace c = false -> lstrip (c :: s) = c :: s.
Proof. intros H; simpl; now rewrite H. Qed.

Lemma lstrip_spaces (ws s : str) :
  forallb isspace ws = true -> lstrip (ws ++ s) = lstrip s.
Proof.
  induction ws as [|c ws IH]; simpl; [reflexivity|].
  intros H; apply andb_true_iff in H as [Hc Hws].
  rewrite Hc; auto.
Qed.

Lemma forallb_rev_eq {A} (f : A -> bool) (l : list A) :
  forallb f (rev l) = forallb f l.
Proof.
  induction l as [|x l IH]; simpl; [reflexivity|].
  rewrite forallb_app, IH; simpl.
  rewrite andb_true_r; apply andb_comm.
Qed.

(** [strip] removes the whitespace around a text that neither starts nor
    ends with whitespace, and nothing else. *)
Lemma strip_spec (l r : str) (a b : codepoint) (m : str) :
  forallb isspace l = true -> forallb isspace r = true ->
  isspace a = false -> isspace b = false ->
  strip (l ++ a :: m ++ b :: r) = a :: m ++ [b].
Proof.
  intros Hl Hr Ha Hb. unfold strip, rstrip.
  rewrite lstrip_spaces by assumption.
  rewrite lstrip_no_space by assumption.
  replace (a :: m ++ b :: r) with ((a :: m ++ [b]) ++ r)
    by (simpl; now rewrite <- app_assoc).
  rewrite rev_app_distr.
  rewrite lstrip_spaces by (rewrite forallb_rev_eq; assumption).
  replace (a :: m ++ [b]) with ((a :: m) ++ [b]) by reflexivity.
  rewrite rev_app_distr. simpl rev at 2. simpl app at 1.
  rewrite lstrip_no_space by assumption.
  simpl. rewrite rev_app_distr, rev_involutive. reflexivity.
Qed.

(** ** The delimiter parser *)

Lemma find_skipn (pat s : str) (d k : nat) :
  find pat s = Some d -> k <= d -> find pat (skipn k s) = Some (d - k).
Proof.
  revert s d; induction k as [|k IH]; intros s d F Hk.
  - now rewrite Nat.sub_0_r.
  - destruct s as [|c s]; simpl in F.
    + destruct (starts_with pat []); [|discriminate].
      injection F as <-; lia.
    + destruct (starts_with pat (c :: s)); [injection F as <-; lia|].
      destruct (find pat s) as [e|] eqn:E; simpl in F; [|discriminate].
      injection F as <-. simpl. apply IH; [assumption|lia].
Qed.

Lemma split_ok (s sep : str) :
  sep <> [] -> split s sep = Ok (split_scan sep 0 [] s).
Proof. destruct sep; [congruence|reflexivity]. Qed.

(** With fewer than three pieces the segment is empty. *)
Lemma extract_between_short (marker raw : str) :
  marker <> [] ->
  length (split_scan marker 0 [] raw) < 3 ->
  extract_between marker raw = Ok [].
Proof.
  intros Hm Hlen. unfold extract_between.
  rewrite split_ok by assumption. simpl.
  apply Nat.ltb_lt in Hlen. now rewrite Hlen.
Qed.

(** A marker that does not occur gives the empty segment. *)
Lemma extract_between_missing (marker raw : str) :
  marker <> [] ->
  find marker raw = None ->
  extract_between marker raw = Ok [].
Proof.
  intros Hm F. apply extract_between_short; [assumption|].
  rewrite split_scan_find, F by assumption. simpl; lia.
Qed.

(** The segment between the first two occurrences of the marker is what
    the parser returns, trimmed. *)
Lemma extract_between_segment (marker raw : str) (i j : nat) :
  marker <> [] ->
  first_occurrence marker raw = Some i ->
  second_occurrence marker raw = Some j ->
  extract_between marker raw = Ok (strip (segment_between marker raw i j)).
Proof.
  unfold first_occurrence, second_occurrence.
  intros Hm F1 F2. rewrite F1 in F2.
  destruct (find marker (skipn (i + length marker) raw)) as [d|] eqn:F;
    [|discriminate].
  simpl in F2. injection F2 as <-.
  unfold extract_between. rewrite split_ok by assumption. simpl.
  rewrite split_scan_find, F1 by assumption.
  rewrite split_scan_find, F by assumption.
  pose proof (split_scan_length marker 0 []
    (skipn (d + length marker) (skipn (i + length marker) raw))) as Hrest.
  cbn [length].
  destruct (Nat.ltb_spec
    (S (S (length (split_scan marker 0 []
       (skipn (d + length marker) (skipn (i + length marker) raw)))))) 3)
    as [Hlt|_]; [lia|].
  simpl. unfold segment_between, slice.
  do 3 f_equal. lia.
Qed.

(** When the next occurrence after the first one does not overlap it,
    it is the second occurrence. *)
Lemma second_occurrence_next (pat s : str) (i d : nat) :
  pat <> [] ->
  find pat s = Some i ->
  find pat (skipn (i + 1) s) = Some d ->
  length pat <= d + 1 ->
  second_occurrence pat s = Some (i + 1 + d).
Proof.
  intros Hp F1 F2 Hd. unfold second_occurrence. rewrite F1.
  assert (Hl : 1 <= length pat) by (destruct pat; [congruence|simpl; lia]).
  replace (i + length pat) with ((length pat - 1) + (i + 1)) by lia.
  rewrite <- skipn_skipn.
  rewrite (find_skipn pat (skipn (i + 1) s) d (length pat - 1) F2)
    by lia.
  simpl. f_equal. lia.
Qed.

(** Two overlapping occurrences count as one: the scan goes on after the
    end of the first. *)
Example overlapping_markers :
  find MARKER_HTML (lit "--html--html--X--html--") = Some 0 /\
  find MARKER_HTML (skipn 1 (lit "--html--html--X--html--")) = Some 5 /\
  second_occurrence MARKER_HTML (lit "--html--html--X--html--") = Some 15 /\
  extract_between MARKER_HTML (lit "--html--html--X--html--")
  = Ok (lit "html--X").
Proof. repeat split. Qed.

Lemma marker_html_nonempty : MARKER_HTML <> [].
Proof. discriminate. Qed.

Lemma marker_css_nonempty : MARKER_CSS <> [].
Proof. discriminate. Qed.

Lemma marker_js_nonempty : MARKER_JS <> [].
Proof. discriminate. Qed.

(** The parser never raises. *)
Lemma extract_between_total (marker raw : str) :
  marker <> [] -> exists v, extract_between marker raw = Ok v.
Proof.
  intros Hm. unfold extract_between. rewrite split_ok by assumption. simpl.
  destruct (Nat.ltb_spec (length (split_scan marker 0 [] raw)) 3) as [_|H].
  - eauto.
  - unfold index.
    destruct (split_scan marker 0 [] raw) as [|p0 [|p1 rest]];
      simpl in *; try lia.
    eauto.
Qed.

Lemma parse_raw_fields (raw : str) (h c j : str) :
  extract_between MARKER_HTML raw = Ok h ->
  extract_between MARKER_CSS raw = Ok c ->
  extract_between MARKER_JS raw = Ok j ->
  parse_raw raw = Ok {| html := h; css := c; js := j |}.
Proof. intros Hh Hc Hj. unfold parse_raw. now rewrite Hh, Hc, Hj. Qed.

Lemma build_website_answer (raw spec_text : str) :
  build_website_from_spec (fun _ => Ok raw) spec_text = parse_raw raw.
Proof. reflexivity. Qed.

(** C1.  A raw response in which each of the three markers occurs at
    least twice is parsed into the three segments that lie between the
    first and the second occurrence of their markers, each trimmed.
    (Such a segment cannot contain its marker, [segment_between_free],
    so that is not a separate assumption.) *)
Theorem C1_parse_well_formed
  (raw spec_text : str) (i1 j1 i2 j2 i3 j3 : nat) :
  first_occurrence MARKER_HTML raw = Some i1 ->
  second_occurrence MARKER_HTML raw = Some j1 ->
  first_occurrence MARKER_CSS raw = Some i2 ->
  second_occurrence MARKER_CSS raw = Some j2 ->
  first_occurrence MARKER_JS raw = Some i3 ->
  second_occurrence MARKER_JS raw = Some j3 ->
  build_website_from_spec (fun _ => Ok raw) spec_text =
  Ok {| html := strip (segment_between MARKER_HTML raw i1 j1);
        css := strip (segment_between MARKER_CSS raw i2 j2);
        js := strip (segment_between MARKER_JS raw i3 j3) |}.
Proof.
  intros. rewrite build_website_answer.
  apply parse_raw_fields; apply extract_between_segment;
    auto using marker_html_nonempty, marker_css_nonempty, marker_js_nonempty.
Qed.

Lemma C1_parse_well_formed_witness :
  build_website_from_spec (fun _ => Ok sample_raw) [] =
  Ok {| html := lit "<h1>Jane Doe</h1>";
        css := lit "h1 { color: teal; }";
        js := lit "console.log(1);" |}.
Proof.
  apply (C1_parse_well_formed sample_raw [] 0 27 36 64 72 95);
    reflexivity.
Defined.

(** ** [split], [join] and [replace] *)

Lemma str_length_ind (P : str -> Prop) :
  (forall s, (forall t, length t < length s -> P t) -> P s) ->
  forall s, P s.
Proof.
  intros step s.
  assert (H : forall n t, length t < n -> P t).
  { induction n as [|n IH]; intros t Ht; [lia|].
    apply step; intros u Hu; apply IH; lia. }
  apply (H (S (length s))); lia.
Qed.

(** The rest after a match is shorter than the text. *)
Lemma rest_shorter (pat s : str) (i : nat) :
  pat <> [] -> find pat s = Some i ->
  length (skipn (i + length pat) s) < length s.
Proof.
  intros Hp F. destruct (find_occurs _ _ _ F) as [Hocc Hlen].
  apply starts_with_length in Hocc. rewrite length_skipn in *.
  destruct pat; [congruence|simpl in *; lia].
Qed.

Lemma join_cons (sep p : str) (rest : list str) :
  1 <= length rest -> join sep (p :: rest) = p ++ sep ++ join sep rest.
Proof. destruct rest; simpl; [lia|reflexivity]. Qed.

(** Joining the pieces with the separator gives the text back. *)
Lemma join_split_scan (sep s : str) :
  sep <> [] -> join sep (split_scan sep 0 [] s) = s.
Proof.
  intros Hsep. induction s as [s IH] using str_length_ind.
  rewrite split_scan_find by assumption.
  destruct (find sep s) as [i|] eqn:F; [|reflexivity].
  rewrite join_cons by apply split_scan_length.
  rewrite IH by (apply rest_shorter; assumption).
  destruct (find_occurs _ _ _ F) as [Hocc Hlen].
  symmetry; apply occurs_at_split; assumption.
Qed.

Lemma replace_scan_skip (old new x r : str) :
  replace_scan old new (length x) (x ++ r) = replace_scan old new 0 r.
Proof.
  induction x as [|c x IH]; simpl; [reflexivity|assumption].
Qed.

Lemma replace_scan_match (old new r : str) :
  old <> [] ->
  replace_scan old new 0 (old ++ r) = new ++ replace_scan old new 0 r.
Proof.
  intros Hold. destruct old as [|c old]; [congruence|].
  change ((c :: old) ++ r) with (c :: (old ++ r)).
  cbn [replace_scan].
  change (c :: old ++ r) with ((c :: old) ++ r).
  rewrite starts_with_app.
  f_equal.
  replace (length (c :: old) - 1) with (length old) by (simpl; lia).
  apply replace_scan_skip.
Qed.

Lemma replace_scan_before (old new p t : str) :
  (forall k, k < length p -> ~ occurs_at old k (p ++ t)) ->
  replace_scan old new 0 (p ++ t) = p ++ replace_scan old new 0 t.
Proof.
  induction p as [|c p IH]; intros H; simpl.
  - reflexivity.
  - destruct (starts_with old (c :: p ++ t)) eqn:E.
    + exfalso; apply (H 0); [simpl; lia|apply occurs_at_0; assumption].
    + f_equal. apply IH.
      intros k Hk Hocc; apply (H (S k)); [simpl; lia|].
      apply occurs_at_S; assumption.
Qed.

(** The loop of [replace]: copy up to the first occurrence, write the
    new text, go on after the occurrence. *)
Lemma replace_scan_find (old new s : str) :
  old <> [] ->
  replace_scan old new 0 s =
  match find old s with
  | None => s
  | Some i =>
      firstn i s ++ new ++ replace_scan old new 0 (skipn (i + length old) s)
  end.
Proof.
  intros Hold. destruct (find old s) as [i|] eqn:F.
  - destruct (find_occurs _ _ _ F) as [Hocc Hlen].
    pose proof (find_least _ _ _ F) as Hmin.
    rewrite (occurs_at_split _ _ _ Hocc Hlen) at 1.
    rewrite replace_scan_before.
    + now rewrite replace_scan_match by assumption.
    + intros k Hk. rewrite <- (occurs_at_split _ _ _ Hocc Hlen).
      apply Hmin. rewrite length_firstn in Hk; lia.
  - rewrite <- (app_nil_r s) at 1.
    rewrite replace_scan_before; [simpl; now rewrite app_nil_r|].
    intros k _; rewrite app_nil_r. apply find_None; assumption.
Qed.

(** Replacing is splitting on the old text and joining with the new. *)
Lemma replace_scan_join (old new s : str) :
  old <> [] ->
  replace_scan old new 0 s = join new (split_scan old 0 [] s).
Proof.
  intros Hold. induction s as [s IH] using str_length_ind.
  rewrite replace_scan_find, split_scan_find by assumption.
  destruct (find old s) as [i|] eqn:F; [|reflexivity].
  rewrite join_cons by apply split_scan_length.
  rewrite IH by (apply rest_shorter; assumption).
  reflexivity.
Qed.

(** ** Counting occurrences *)

Lemma count_occurrences_none (pat s : str) :
  (forall k, ~ occurs_at pat k s) -> count_occurrences pat s = 0.
Proof.
  induction s as [|c s IH]; intros H; simpl; [reflexivity|].
  destruct (starts_with pat (c :: s)) eqn:E.
  - exfalso; apply (H 0); apply occurs_at_0; assumption.
  - simpl. apply IH. intros k Hk; apply (H (S k)).
    apply occurs_at_S; assumption.
Qed.

Lemma count_occurrences_before (pat p t : str) :
  (forall k, k < length p -> ~ occurs_at pat k (p ++ t)) ->
  count_occurrences pat (p ++ t) = count_occurrences pat t.
Proof.
  induction p as [|c p IH]; intros H; simpl; [reflexivity|].
  destruct (starts_with pat (c :: p ++ t)) eqn:E.
  - exfalso; apply (H 0); [simpl; lia|apply occurs_at_0; assumption].
  - simpl. apply IH. intros k Hk Hocc; apply (H (S k)); [simpl; lia|].
    apply occurs_at_S; assumption.
Qed.

Lemma starts_with_firstn (pat s : str) (n : nat) :
  starts_with pat (firstn n s) = true -> starts_with pat s = true.
Proof.
  revert s n; induction pat as [|p pat IH]; intros s n H; simpl in *.
  - reflexivity.
  - destruct s as [|c s]; [now rewrite firstn_nil in H|].
    destruct n as [|n]; simpl in H; [discriminate|].
    apply andb_true_iff in H as [Hc Hs].
    rewrite Hc; simpl; eapply IH; eassumption.
Qed.

Lemma occurs_at_firstn (pat s : str) (n k : nat) :
  occurs_at pat k (firstn n s) -> occurs_at pat k s.
Proof.
  unfold occurs_at. rewrite skipn_firstn_comm. apply starts_with_firstn.
Qed.

(** The text before the first occurrence contains none. *)
Lemma count_occurrences_firstn (pat s : str) (i : nat) :
  pat <> [] -> find pat s = Some i ->
  count_occurrences pat (firstn i s) = 0.
Proof.
  intros Hp F. apply count_occurrences_none. intros k Hocc.
  assert (Hk : k < i).
  { apply starts_with_length in Hocc.
    rewrite length_skipn, length_firstn in Hocc.
    destruct pat; [congruence|simpl in Hocc; lia]. }
  apply (find_least _ _ _ F k Hk).
  eapply occurs_at_firstn; eassumption.
Qed.

(** No piece of a split contains the separator. *)
Lemma split_scan_pieces_free (sep s : str) :
  sep <> [] ->
  Forall (fun p => count_occurrences sep p = 0) (split_scan sep 0 [] s).
Proof.
  intros Hsep. induction s as [s IH] using str_length_ind.
  rewrite split_scan_find by assumption.
  destruct (find sep s) as [i|] eqn:F.
  - constructor.
    + apply count_occurrences_firstn; assumption.
    + apply IH, rest_shorter; assumption.
  - constructor; [|constructor].
    apply count_occurrences_none, find_None; assumption.
Qed.

(** Such a segment does not contain the marker. *)
Lemma segment_between_free (marker raw : str) (i j : nat) :
  marker <> [] ->
  first_occurrence marker raw = Some i ->
  second_occurrence marker raw = Some j ->
  count_occurrences marker (segment_between marker raw i j) = 0.
Proof.
  unfold first_occurrence, second_occurrence.
  intros Hm F1 F2. rewrite F1 in F2.
  destruct (find marker (skipn (i + length marker) raw)) as [d|] eqn:F;
    [|discriminate].
  simpl in F2. injection F2 as <-.
  unfold segment_between, slice.
  replace (i + length marker + d - (i + length marker)) with d by lia.
  apply count_occurrences_firstn; assumption.
Qed.

(** ** The link rewrite *)

Lemma anchor_nonempty : ANCHOR <> [].
Proof. discriminate. Qed.

(** Two occurrences of [<a ] never overlap, so counting occurrences
    follows the loop of [replace]. *)
Lemma anchor_count_find (s : str) :
  count_occurrences ANCHOR s =
  match find ANCHOR s with
  | None => 0
  | Some i => S (count_occurrences ANCHOR (skipn (i + length ANCHOR) s))
  end.
Proof.
  destruct (find ANCHOR s) as [i|] eqn:F.
  - destruct (find_occurs _ _ _ F) as [Hocc Hlen].
    pose proof (find_least _ _ _ F) as Hmin.
    rewrite (occurs_at_split _ _ _ Hocc Hlen) at 1.
    rewrite count_occurrences_before.
    + set (rest := skipn (i + length ANCHOR) s).
      reflexivity.
    + intros k Hk. rewrite <- (occurs_at_split _ _ _ Hocc Hlen).
      apply Hmin. rewrite length_firstn in Hk; lia.
  - apply count_occurrences_none, find_None; assumption.
Qed.

Lemma anchor_pieces_count (s : str) :
  length (split_scan ANCHOR 0 [] s) = S (count_occurrences ANCHOR s).
Proof.
  induction s as [s IH] using str_length_ind.
  rewrite split_scan_find, anchor_count_find by apply anchor_nonempty.
  destruct (find ANCHOR s) as [i|] eqn:F; [|reflexivity].
  simpl length at 1. f_equal.
  apply IH, rest_shorter; [apply anchor_nonempty|assumption].
Qed.

(** C6, as amended: [<a ] is three code points long.  The link rewrite
    cuts the fragment at every occurrence of [<a ]: the fragment is its
    pieces joined by [<a ], no piece contains [<a ], and there is one
    more piece than there are occurrences.  The rewritten text is the
    same pieces joined by [<a ] followed by the injected attributes: each
    occurrence gets the attributes right after it, exactly once, and the
    rest of the text is unchanged.  The sanitizer wraps that text in the
    document shell. *)
Theorem C6_link_rewrite (fragment : str) :
  length ANCHOR = 3 /\
  exists pieces : list str,
    fragment = join ANCHOR pieces /\
    rewrite_links fragment = join (ANCHOR ++ ANCHOR_ATTRS) pieces /\
    Forall (fun p => count_occurrences ANCHOR p = 0) pieces /\
    length pieces = S (count_occurrences ANCHOR fragment) /\
    sanitize_html_for_preview fragment
    = force_light_theme (join (ANCHOR ++ ANCHOR_ATTRS) pieces).
Proof.
  split; [reflexivity|].
  exists (split_scan ANCHOR 0 [] fragment).
  assert (Hr : rewrite_links fragment
               = join (ANCHOR ++ ANCHOR_ATTRS) (split_scan ANCHOR 0 [] fragment)).
  { unfold rewrite_links, replace.
    change ANCHOR with (60%N :: [97%N; 32%N]) at 1.
    apply replace_scan_join; discriminate. }
  repeat split.
  - symmetry; apply join_split_scan, anchor_nonempty.
  - assumption.
  - apply split_scan_pieces_free, anchor_nonempty.
  - apply anchor_pieces_count.
  - unfold sanitize_html_for_preview. now rewrite Hr.
Qed.

(** C6 as stated fails: the text the rewrite looks for has three code
    points, not four. *)
Lemma C6_anchor_is_not_four_characters :
  ~ (forall fragment : str,
       length ANCHOR = 4 /\
       exists pieces : list str,
         fragment = join ANCHOR pieces /\
         rewrite_links fragment = join (ANCHOR ++ ANCHOR_ATTRS) pieces /\
         length pieces = S (count_occurrences ANCHOR fragment)).
Proof.
  intros H. destruct (H []) as [Hlen _]. discriminate Hlen.
Qed.

(** ** The theme lock *)

Lemma closed_on_the_right_tail (pat : str) (c : codepoint) (a : str) :
  closed_on_the_right pat (c :: a) = true -> closed_on_the_right pat a = true.
Proof.
  cbn [closed_on_the_right]. intros H.
  apply andb_true_iff in H as [_ H]. exact H.
Qed.

(** Occurrences in [a ++ b] are those in [a] and those in [b] when none
    can run from [a] into [b]: first by looking at the ends of [a]. *)
Lemma count_occurrences_app_right_closed (pat a b : str) :
  closed_on_the_right pat a = true ->
  count_occurrences pat (a ++ b)
  = count_occurrences pat a + count_occurrences pat b.
Proof.
  induction a as [|c a IH]; intros H; [reflexivity|].
  pose proof (closed_on_the_right_tail _ _ _ H) as Htail.
  cbn [closed_on_the_right] in H.
  apply andb_true_iff in H as [H _].
  change ((c :: a) ++ b) with (c :: (a ++ b)).
  cbn [count_occurrences]. rewrite IH by assumption.
  change (c :: (a ++ b)) with ((c :: a) ++ b).
  assert (E : starts_with pat ((c :: a) ++ b) = starts_with pat (c :: a)).
  { apply orb_true_iff in H as [H|H].
    - apply starts_with_app_long. apply Nat.leb_le; assumption.
    - apply negb_true_iff in H.
      destruct (Nat.le_gt_cases (length pat) (length (c :: a))) as [Hle|Hgt].
      + apply starts_with_app_long; assumption.
      + rewrite starts_with_app_mismatch by assumption.
        symmetry; apply starts_with_short; assumption. }
  rewrite E. lia.
Qed.

(** The same, by looking at the beginning of [b]. *)
Lemma count_occurrences_app_left_closed (pat a b : str) :
  pat <> [] ->
  closed_on_the_left pat b = true ->
  count_occurrences pat (a ++ b)
  = count_occurrences pat a + count_occurrences pat b.
Proof.
  intros Hp H. induction a as [|c a IH]; [reflexivity|].
  change ((c :: a) ++ b) with (c :: (a ++ b)).
  cbn [count_occurrences]. rewrite IH.
  change (c :: (a ++ b)) with ((c :: a) ++ b).
  assert (E : starts_with pat ((c :: a) ++ b) = starts_with pat (c :: a)).
  { destruct (Nat.le_gt_cases (length pat) (length (c :: a))) as [Hle|Hgt].
    - apply starts_with_app_long; assumption.
    - rewrite (starts_with_short pat (c :: a)) by assumption.
      destruct (starts_with pat ((c :: a) ++ b)) eqn:S; [|reflexivity].
      apply starts_with_app_straddle in S; [|assumption].
      unfold closed_on_the_left in H. rewrite forallb_forall in H.
      specialize (H (length (c :: a))). rewrite S in H.
      discriminate H. apply in_seq. simpl in *; lia. }
  rewrite E. lia.
Qed.

Lemma force_light_theme_shell (fragment : str) :
  force_light_theme fragment = shell_before ++ fragment ++ shell_after.
Proof.
  unfold force_light_theme, shell_before, shell_after.
  now rewrite <- !app_assoc.
Qed.

(** The wrapper adds one occurrence of [pat] when the shell has one
    before the fragment, none after it, and no occurrence can run across
    the two seams. *)
Lemma force_light_theme_count (pat fragment : str) :
  pat <> [] ->
  closed_on_the_right pat shell_before = true ->
  closed_on_the_left pat shell_after = true ->
  count_occurrences pat shell_before = 1 ->
  count_occurrences pat shell_after = 0 ->
  count_occurrences pat (force_light_theme fragment)
  = S (count_occurrences pat fragment).
Proof.
  intros Hp Hr Hl H1 H0.
  rewrite force_light_theme_shell.
  rewrite count_occurrences_app_right_closed by assumption.
  rewrite count_occurrences_app_left_closed by assumption.
  lia.
Qed.

(** C7, as amended.  The wrapper puts the fragment, unchanged, between
    the two halves of the document shell; the shell brings exactly one
    style block (one [<style] and one [</style>]), so the output has one
    style block more than the fragment, and exactly one when the
    fragment has none. *)
Theorem C7_theme_lock (fragment : str) :
  force_light_theme fragment = shell_before ++ fragment ++ shell_after /\
  count_occurrences STYLE_OPEN (force_light_theme fragment)
  = S (count_occurrences STYLE_OPEN fragment) /\
  count_occurrences STYLE_CLOSE (force_light_theme fragment)
  = S (count_occurrences STYLE_CLOSE fragment) /\
  (count_occurrences STYLE_OPEN fragment = 0 ->
   count_occurrences STYLE_OPEN (force_light_theme fragment) = 1).
Proof.
  assert (Ho : count_occurrences STYLE_OPEN (force_light_theme fragment)
               = S (count_occurrences STYLE_OPEN fragment))
    by (apply force_light_theme_count; solve [discriminate | reflexivity]).
  split; [apply force_light_theme_shell|].
  split; [exact Ho|].
  split.
  - apply force_light_theme_count; solve [discriminate | reflexivity].
  - intros H. rewrite Ho, H. reflexivity.
Qed.

Lemma C7_theme_lock_witness :
  count_occurrences STYLE_OPEN
    (force_light_theme (lit "<h1>Jane Doe</h1>")) = 1.
Proof.
  apply (C7_theme_lock (lit "<h1>Jane Doe</h1>")). reflexivity.
Defined.

(** C7 as stated fails: a fragment that brings a style block of its own
    gives a document with two, not one. *)
Lemma C7_two_style_blocks :
  count_occurrences STYLE_OPEN
    (force_light_theme (lit "<style>p{}</style><p>x</p>")) = 2 /\
  count_occurrences STYLE_CLOSE
    (force_light_theme (lit "<style>p{}</style><p>x</p>")) = 2 /\
  count_occurrences STYLE_OPEN
    (force_light_theme (lit "<style>p{}</style><p>x</p>")) <> 1.
Proof. repeat split; try reflexivity. vm_compute. discriminate. Qed.

(** ** Malformed responses *)

(** C3.  On every raw response the parser returns a bundle and does not
    raise.  Each field is what [extract_between] finds for its own
    marker in the whole response, whatever the state of the other two
    markers; a marker whose split has fewer than three pieces gives the
    empty string. *)
Theorem C3_parse_malformed (raw spec_text : str) :
  exists w : website,
    build_website_from_spec (fun _ => Ok raw) spec_text = Ok w /\
    extract_between MARKER_HTML raw = Ok (html w) /\
    extract_between MARKER_CSS raw = Ok (css w) /\
    extract_between MARKER_JS raw = Ok (js w) /\
    (forall parts, split raw MARKER_HTML = Ok parts ->
                   length parts < 3 -> html w = []) /\
    (forall parts, split raw MARKER_CSS = Ok parts ->
                   length parts < 3 -> css w = []) /\
    (forall parts, split raw MARKER_JS = Ok parts ->
                   length parts < 3 -> js w = []).
Proof.
  destruct (extract_between_total MARKER_HTML raw marker_html_nonempty)
    as [h Hh].
  destruct (extract_between_total MARKER_CSS raw marker_css_nonempty)
    as [c Hc].
  destruct (extract_between_total MARKER_JS raw marker_js_nonempty)
    as [j Hj].
  exists {| html := h; css := c; js := j |}.
  rewrite build_website_answer. cbn [html css js].
  split; [apply parse_raw_fields; assumption|].
  do 3 (split; [assumption|]).
  assert (short : forall marker v parts,
            marker <> [] ->
            extract_between marker raw = Ok v ->
            split raw marker = Ok parts -> length parts < 3 -> v = []).
  { intros marker v parts Hm Hv Hs Hlen.
    rewrite split_ok in Hs by assumption. injection Hs as <-.
    rewrite extract_between_short in Hv by assumption. congruence. }
  split; [|split]; intros parts Hs Hlen.
  - exact (short _ _ _ marker_html_nonempty Hh Hs Hlen).
  - exact (short _ _ _ marker_css_nonempty Hc Hs Hlen).
  - exact (short _ _ _ marker_js_nonempty Hj Hs Hlen).
Qed.

Lemma C3_parse_malformed_witness :
  exists w : website,
    build_website_from_spec (fun _ => Ok sample_raw_no_css) [] = Ok w /\
    html w = lit "<h1>Jane Doe</h1>" /\
    css w = [] /\
    js w = lit "console.log(1);".
Proof.
  destruct (C3_parse_malformed sample_raw_no_css [])
    as (w & Hw & Hh & _ & Hj & _ & Hc & _).
  exists w. split; [exact Hw|].
  split; [|split].
  - assert (E : extract_between MARKER_HTML sample_raw_no_css
                 = Ok (lit "<h1>Jane Doe</h1>")) by reflexivity.
    congruence.
  - apply (Hc (split_scan MARKER_CSS 0 [] sample_raw_no_css));
      [reflexivity|vm_compute; lia].
  - assert (E : extract_between MARKER_JS sample_raw_no_css
                 = Ok (lit "console.log(1);")) by reflexivity.
    congruence.
Defined.

(** ** The text extractor *)

Lemma count_char_app (c : codepoint) (a b : str) :
  count_char c (a ++ b) = count_char c a + count_char c b.
Proof.
  apply count_occurrences_app_left_closed; [discriminate|reflexivity].
Qed.

(** Joining with a one-character separator adds one separator for each
    chunk after the first. *)
Lemma count_char_join (c : codepoint) (chunks : list str) :
  count_char c (join [c] chunks)
  = (length chunks - 1) + list_sum (map (count_char c) chunks).
Proof.
  induction chunks as [|x [|y rest] IH].
  - reflexivity.
  - simpl. lia.
  - rewrite join_cons by (simpl; lia).
    rewrite !count_char_app, IH.
    assert (E : count_char c [c] = 1)
      by (unfold count_char; simpl; now rewrite N.eqb_refl).
    rewrite E. simpl length. simpl map. simpl list_sum. lia.
Qed.

Section ExtractorProperties.

Context {L : DocLibs}.

Lemma pdf_pages_loop_ok (pages : list Page) (texts : list (option str))
    (text_chunks : list str) :
  map Page_extract_text pages = map Ok texts ->
  pdf_pages_loop pages text_chunks = Ok (text_chunks ++ map or_empty texts).
Proof.
  revert texts text_chunks; induction pages as [|p pages IH];
    intros [|t texts] acc H; simpl in H; try discriminate.
  - simpl. now rewrite app_nil_r.
  - injection H as Hp Hrest. simpl. rewrite Hp. simpl.
    rewrite (IH texts) by assumption.
    now rewrite <- app_assoc.
Qed.

(** C5.  For a document that decodes into [N] pages, each giving a text
    or none, the extracted text is the page texts in page order, an
    empty text for a page that gives none, joined by newlines: [N]
    chunks and [N - 1] separators, so the newlines of the result are the
    [N - 1] separators and those inside the page texts. *)
Theorem C5_pdf_page_join (file_bytes : bytes) (pages : list Page)
    (texts : list (option str)) :
  PdfReader_pages file_bytes = Ok pages ->
  map Page_extract_text pages = map Ok texts ->
  extract_text_from_pdf file_bytes = Ok (join NL (map or_empty texts)) /\
  length (map or_empty texts) = length pages /\
  count_char 10%N (join NL (map or_empty texts))
  = (length pages - 1)
    + list_sum (map (count_char 10%N) (map or_empty texts)).
Proof.
  intros Hr Ht. unfold extract_text_from_pdf. rewrite Hr. simpl.
  rewrite (pdf_pages_loop_ok pages texts []) by assumption. simpl.
  assert (Hlen : length (map or_empty texts) = length pages).
  { rewrite length_map. rewrite <- (length_map Ok texts), <- Ht.
    apply length_map. }
  split; [reflexivity|]. split; [assumption|].
  unfold NL. rewrite count_char_join, Hlen. reflexivity.
Qed.

Lemma str_eqb_eq (a b : str) : str_eqb a b = true <-> a = b.
Proof.
  revert b; induction a as [|x a IH]; intros [|y b]; simpl;
    try (split; [discriminate|congruence]); [tauto|].
  rewrite andb_true_iff, N.eqb_eq, IH.
  split; [intros [-> ->]; reflexivity|intros [= -> ->]; auto].
Qed.

Lemma str_eqb_neq (a b : str) : str_eqb a b = false <-> a <> b.
Proof.
  rewrite <- str_eqb_eq. destruct (str_eqb a b); split; congruence.
Qed.

Lemma lower_app (a b : str) : lower (a ++ b) = lower a ++ lower b.
Proof. apply flat_map_app. Qed.

(** The suffix test on the lowered name accepts every spelling of the
    extension. *)
Lemma endswith_lower (stem ext suffix : str) :
  lower ext = suffix -> endswith (lower (stem ++ ext)) suffix = true.
Proof.
  intros <-. unfold endswith.
  rewrite lower_app, rev_app_distr. apply starts_with_app.
Qed.

(** The decision of [extract_resume_text], branch by branch. *)
Lemma extract_resume_text_pdf (f : UploadedFile) :
  type f = PDF_MIME \/ endswith (lower (name f)) (lit ".pdf") = true ->
  extract_resume_text (Some f) = extract_text_from_pdf (content f).
Proof.
  unfold extract_resume_text. intros [Ht|Hn].
  - apply str_eqb_eq in Ht. now rewrite Ht.
  - rewrite Hn. now rewrite orb_true_r.
Qed.

Lemma extract_resume_text_docx (f : UploadedFile) :
  type f <> PDF_MIME ->
  endswith (lower (name f)) (lit ".pdf") = false ->
  type f = DOCX_MIME \/ type f = MSWORD_MIME
  \/ endswith (lower (name f)) (lit ".docx") = true ->
  extract_resume_text (Some f) = extract_text_from_docx (content f).
Proof.
  unfold extract_resume_text, str_in.
  intros Ht Hn Hd. apply str_eqb_neq in Ht. rewrite Ht, Hn.
  cbn [orb existsb].
  destruct Hd as [Hd|[Hd|Hd]].
  - apply str_eqb_eq in Hd. now rewrite Hd.
  - apply str_eqb_eq in Hd. rewrite Hd.
    now rewrite orb_true_r.
  - rewrite Hd. now rewrite orb_true_r.
Qed.

Lemma extract_resume_text_neither (f : UploadedFile) :
  type f <> PDF_MIME ->
  endswith (lower (name f)) (lit ".pdf") = false ->
  type f <> DOCX_MIME -> type f <> MSWORD_MIME ->
  endswith (lower (name f)) (lit ".docx") = false ->
  extract_resume_text (Some f) = Ok [].
Proof.
  unfold extract_resume_text, str_in.
  intros Ht Hn Hd Hm He.
  apply str_eqb_neq in Ht, Hd, Hm. rewrite Ht, Hn.
  cbn [orb existsb]. now rewrite Hd, Hm, He.
Qed.

(** C4, as amended.  No file gives the empty string.  The PDF extractor
    is used when the declared media type is PDF or the name ends in
    [.pdf] in any letter case; otherwise the DOCX extractor is used when
    the declared media type is one of the two Word types or the name
    ends in [.docx]; otherwise the result is the empty string.  So a
    declared PDF type decides by itself, a declared Word type decides
    only for a name that does not end in [.pdf]. *)
Theorem C4_format_selection (f : UploadedFile) :
  extract_resume_text None = Ok [] /\
  (type f = PDF_MIME ->
   extract_resume_text (Some f) = extract_text_from_pdf (content f)) /\
  (forall stem ext, name f = stem ++ ext -> lower ext = lit ".pdf" ->
   extract_resume_text (Some f) = extract_text_from_pdf (content f)) /\
  (type f <> PDF_MIME ->
   endswith (lower (name f)) (lit ".pdf") = false ->
   (type f = DOCX_MIME \/ type f = MSWORD_MIME
    \/ endswith (lower (name f)) (lit ".docx") = true) ->
   extract_resume_text (Some f) = extract_text_from_docx (content f)) /\
  (type f <> PDF_MIME ->
   endswith (lower (name f)) (lit ".pdf") = false ->
   type f <> DOCX_MIME -> type f <> MSWORD_MIME ->
   endswith (lower (name f)) (lit ".docx") = false ->
   extract_resume_text (Some f) = Ok []).
Proof.
  split; [reflexivity|].
  split; [|split; [|split]].
  - intros Ht. apply extract_resume_text_pdf; auto.
  - intros stem ext Hn He. apply extract_resume_text_pdf. right.
    rewrite Hn. apply endswith_lower; assumption.
  - apply extract_resume_text_docx.
  - apply extract_resume_text_neither.
Qed.

(** C9.  A file declared as [application/msword] whose name does not end
    in [.pdf] goes to the DOCX extractor. *)
Theorem C9_legacy_word (f : UploadedFile) :
  type f = MSWORD_MIME ->
  endswith (lower (name f)) (lit ".pdf") = false ->
  extract_resume_text (Some f) = extract_text_from_docx (content f).
Proof.
  intros Ht Hn. apply extract_resume_text_docx; auto.
  rewrite Ht. discriminate.
Qed.

End ExtractorProperties.

Lemma C5_pdf_page_join_witness :
  extract_text_from_pdf (L := example_libs) three_pages
  = Ok (lit "one" ++ NL ++ NL ++ lit "three").
Proof.
  destruct (C5_pdf_page_join (L := example_libs) three_pages
              [blit "one"; []; blit "three"]
              [Some (lit "one"); None; Some (lit "three")]) as [H _];
    [reflexivity|reflexivity|exact H].
Defined.

Lemma C4_format_selection_witness :
  extract_resume_text (L := example_libs) (Some legacy_doc)
  = extract_text_from_docx (L := example_libs) (content legacy_doc).
Proof.
  destruct (C4_format_selection (L := example_libs) legacy_doc)
    as (_ & _ & _ & H & _).
  apply H; [vm_compute; discriminate|reflexivity|right; left; reflexivity].
Defined.

(** C4 as stated fails: a file declared as a Word document is read as a
    PDF when its name ends in [.pdf]; the media type did not decide. *)
Lemma C4_media_type_does_not_decide :
  type docx_named_pdf = DOCX_MIME /\
  extract_resume_text (L := example_libs) (Some docx_named_pdf)
  = extract_text_from_pdf (L := example_libs) (content docx_named_pdf) /\
  extract_resume_text (L := example_libs) (Some docx_named_pdf)
  <> extract_text_from_docx (L := example_libs) (content docx_named_pdf).
Proof.
  split; [reflexivity|]. split; [reflexivity|].
  vm_compute. discriminate.
Qed.

Lemma C9_legacy_word_witness :
  extract_resume_text (L := example_libs) (Some legacy_doc)
  = Ok (lit "Jane" ++ NL ++ lit "Doe").
Proof.
  rewrite (C9_legacy_word (L := example_libs) legacy_doc);
    reflexivity.
Defined.

(** ** The archive packager *)

(** *** UTF-8 *)

Lemma to_N_octet (c : N) : (c < 256)%N -> Byte.to_N (octet c) = c.
Proof.
  intros Hc. unfold octet. rewrite N.mod_small by assumption.
  destruct (Byte.of_N c) as [b|] eqn:E.
  - apply Byte.to_of_N; assumption.
  - apply Byte.of_N_None_iff in E. lia.
Qed.

Lemma below_check (f : N -> bool) (n : nat) :
  forallb f (map N.of_nat (List.seq 0 n)) = true ->
  forall x, (x < N.of_nat n)%N -> f x = true.
Proof.
  intros H x Hx. rewrite forallb_forall in H. apply H.
  rewrite <- (N2Nat.id x). apply in_map. apply in_seq. lia.
Qed.

Lemma lor_low (hi : N) (n : nat) (x : N) :
  forallb (fun k => N.lor hi k =? hi + k)%N (map N.of_nat (List.seq 0 n)) = true ->
  (x < N.of_nat n)%N -> N.lor hi x = (hi + x)%N.
Proof.
  intros H Hx. apply N.eqb_eq. exact (below_check _ n H x Hx).
Qed.

Lemma shiftr_6 (c : N) : N.shiftr c 6 = (c / 64)%N.
Proof. now rewrite N.shiftr_div_pow2. Qed.

Lemma land_63 (c : N) : N.land c 63 = (c mod 64)%N.
Proof. change 63%N with (N.ones 6). now rewrite N.land_ones. Qed.

Lemma shiftr_12 (c : N) : N.shiftr c 12 = (c / 64 / 64)%N.
Proof. rewrite N.shiftr_div_pow2, N.Div0.div_div. reflexivity. Qed.

Lemma shiftr_18 (c : N) : N.shiftr c 18 = (c / 64 / 64 / 64)%N.
Proof. rewrite N.shiftr_div_pow2, !N.Div0.div_div. reflexivity. Qed.

Lemma encode_codepoint_form (c : codepoint) (b : bytes) :
  is_scalar c = true -> encode_codepoint c = Ok b -> utf8_form c b.
Proof.
  unfold is_scalar, encode_codepoint. intros Hc.
  apply andb_true_iff in Hc as [Hmax Hsur].
  apply N.ltb_lt in Hmax. apply negb_true_iff in Hsur.
  fold (is_surrogate c). rewrite Hsur.
  rewrite !shiftr_6, !shiftr_12, !shiftr_18, !land_63.
  pose proof (N.div_mod c 64 ltac:(lia)) as E1.
  pose proof (N.mod_lt c 64 ltac:(lia)) as B1.
  pose proof (N.div_mod (c / 64) 64 ltac:(lia)) as E2.
  pose proof (N.mod_lt (c / 64) 64 ltac:(lia)) as B2.
  pose proof (N.div_mod (c / 64 / 64) 64 ltac:(lia)) as E3.
  pose proof (N.mod_lt (c / 64 / 64) 64 ltac:(lia)) as B3.
  set (q1 := (c / 64)%N) in *. set (r1 := (c mod 64)%N) in *.
  set (q2 := (q1 / 64)%N) in *. set (r2 := (q1 mod 64)%N) in *.
  set (q3 := (q2 / 64)%N) in *. set (r3 := (q2 mod 64)%N) in *.
  destruct (N.ltb_spec c 128) as [H1|H1];
    [intros [= <-]; constructor; assumption|].
  destruct (N.ltb_spec c 2048) as [H2|H2].
  { rewrite (lor_low 192 64 q1), (lor_low 128 64 r1) by (reflexivity || lia).
    intros [= <-]. apply form_2; lia. }
  destruct (N.ltb_spec c 65536) as [H3|H3].
  { rewrite (lor_low 224 16 q2), (lor_low 128 64 r2), (lor_low 128 64 r1)
      by (reflexivity || lia).
    intros [= <-]. apply form_3; try assumption; lia. }
  rewrite (lor_low 240 8 q3), (lor_low 128 64 r3), (lor_low 128 64 r2),
    (lor_low 128 64 r1) by (reflexivity || lia).
  intros [= <-]. apply form_4; lia.
Qed.

Lemma decode_utf8_cons (b0 : byte) (rest : bytes) :
  decode_utf8 (b0 :: rest) =
      let n0 := Byte.to_N b0 in
      if (n0 <? 128)%N then
        s <- decode_utf8 rest ;; Ok (n0 :: s)
      else if ((194 <=? n0) && (n0 <? 224))%N then
        match rest with
        | b1 :: rest1 =>
            let n1 := Byte.to_N b1 in
            if continuation n1 then
              s <- decode_utf8 rest1 ;;
              Ok (((n0 - 192) * 64 + (n1 - 128))%N :: s)
            else Raise UnicodeDecodeError
        | _ => Raise UnicodeDecodeError
        end
      else if ((224 <=? n0) && (n0 <? 240))%N then
        match rest with
        | b1 :: b2 :: rest2 =>
            let n1 := Byte.to_N b1 in
            let n2 := Byte.to_N b2 in
            let c := ((n0 - 224) * 4096 + (n1 - 128) * 64 + (n2 - 128))%N in
            if continuation n1 && continuation n2
               && (2048 <=? c)%N && negb (is_surrogate c) then
              s <- decode_utf8 rest2 ;; Ok (c :: s)
            else Raise UnicodeDecodeError
        | _ => Raise UnicodeDecodeError
        end
      else if ((240 <=? n0) && (n0 <? 245))%N then
        match rest with
        | b1 :: b2 :: b3 :: rest3 =>
            let n1 := Byte.to_N b1 in
            let n2 := Byte.to_N b2 in
            let n3 := Byte.to_N b3 in
            let c := ((n0 - 240) * 262144 + (n1 - 128) * 4096
                      + (n2 - 128) * 64 + (n3 - 128))%N in
            if continuation n1 && continuation n2 && continuation n3
               && (65536 <=? c)%N && (c <? 1114112)%N then
              s <- decode_utf8 rest3 ;; Ok (c :: s)
            else Raise UnicodeDecodeError
        | _ => Raise UnicodeDecodeError
        end
      else Raise UnicodeDecodeError.
Proof. reflexivity. Qed.

Lemma continuation_ok (b : N) : (b < 64)%N -> continuation (128 + b) = true.
Proof.
  intros H. unfold continuation.
  apply andb_true_iff; split; [apply N.leb_le|apply N.ltb_lt]; lia.
Qed.

Lemma decode_utf8_form (c : codepoint) (b t : bytes) :
  utf8_form c b ->
  decode_utf8 (b ++ t) = (s <- decode_utf8 t ;; Ok (c :: s)).
Proof.
  intros [H | a b0 E Ha Hb | a m b0 E Ha Hm Hb Hmin Hsur
          | a m1 m2 b0 E Ha Hm1 Hm2 Hb Hr];
    cbn [app]; rewrite decode_utf8_cons; cbv zeta;
    rewrite ?to_N_octet by lia.
  - destruct (N.ltb_spec c 128); [reflexivity|lia].
  - destruct (N.ltb_spec (192 + a) 128); [lia|].
    destruct (N.leb_spec 194 (192 + a)); [|lia].
    destruct (N.ltb_spec (192 + a) 224); [|lia].
    cbn [andb]. rewrite continuation_ok by assumption.
    replace ((192 + a - 192) * 64 + (128 + b0 - 128))%N with c by lia.
    reflexivity.
  - destruct (N.ltb_spec (224 + a) 128); [lia|].
    destruct (N.leb_spec 194 (224 + a)); [|lia].
    destruct (N.ltb_spec (224 + a) 224); [lia|].
    destruct (N.leb_spec 224 (224 + a)); [|lia].
    destruct (N.ltb_spec (224 + a) 240); [|lia].
    cbn [andb]. rewrite !continuation_ok by assumption.
    replace ((224 + a - 224) * 4096 + (128 + m - 128) * 64
             + (128 + b0 - 128))%N with c by lia.
    rewrite Hsur. destruct (N.leb_spec 2048 c); [reflexivity|lia].
  - destruct (N.ltb_spec (240 + a) 128); [lia|].
    destruct (N.leb_spec 194 (240 + a)); [|lia].
    destruct (N.ltb_spec (240 + a) 224); [lia|].
    destruct (N.leb_spec 224 (240 + a)); [|lia].
    destruct (N.ltb_spec (240 + a) 240); [lia|].
    destruct (N.leb_spec 240 (240 + a)); [|lia].
    destruct (N.ltb_spec (240 + a) 245); [|lia].
    cbn [andb]. rewrite !continuation_ok by assumption.
    replace ((240 + a - 240) * 262144 + (128 + m1 - 128) * 4096
             + (128 + m2 - 128) * 64 + (128 + b0 - 128))%N with c by lia.
    destruct (N.leb_spec 65536 c); [|lia].
    destruct (N.ltb_spec c 1114112); [reflexivity|lia].
Qed.

Lemma encode_codepoint_ok (c : codepoint) :
  is_scalar c = true -> exists b, encode_codepoint c = Ok b.
Proof.
  unfold is_scalar, encode_codepoint. intros H.
  apply andb_true_iff in H as [_ H]. apply negb_true_iff in H. rewrite H.
  destruct (c <? 128)%N; [eauto|].
  destruct (c <? 2048)%N; [eauto|].
  destruct (c <? 65536)%N; eauto.
Qed.

(** A string without surrogates has a UTF-8 form. *)
Lemma encode_utf8_ok (s : str) :
  encodable s = true -> exists b, encode_utf8 s = Ok b.
Proof.
  induction s as [|c s IH]; simpl; [eauto|].
  intros H. apply andb_true_iff in H as [Hc Hs].
  destruct (encode_codepoint_ok c Hc) as [b ->].
  destruct (IH Hs) as [bs ->]. simpl. eauto.
Qed.

(** Decoding undoes encoding. *)
Lemma decode_encode_utf8 (s : str) (b : bytes) :
  encodable s = true -> encode_utf8 s = Ok b -> decode_utf8 b = Ok s.
Proof.
  revert b; induction s as [|c s IH]; intros b Hs; simpl.
  - intros [= <-]. reflexivity.
  - simpl in Hs. apply andb_true_iff in Hs as [Hc Hs].
    destruct (encode_codepoint c) as [bc|] eqn:Ec; simpl; [|discriminate].
    destruct (encode_utf8 s) as [bs|] eqn:Es; simpl; [|discriminate].
    intros [= <-].
    rewrite (decode_utf8_form c bc bs (encode_codepoint_form c bc Hc Ec)).
    now rewrite (IH bs Hs eq_refl).
Qed.

(** A lone surrogate has none. *)
Lemma encode_utf8_surrogate (c : codepoint) (s : str) :
  is_surrogate c = true -> encode_utf8 (c :: s) = Raise UnicodeEncodeError.
Proof.
  intros H. simpl. unfold encode_codepoint. rewrite H.
  unfold is_surrogate in H.
  apply andb_true_iff in H as [H _]. apply N.leb_le in H.
  destruct (N.ltb_spec c 128); [lia|].
  destruct (N.ltb_spec c 2048); [lia|]. reflexivity.
Qed.

Section PackagerProperties.

Context {C : zipfile.Codec}.

Lemma create_zip_bytes_ok (html css js : str) (bh bc bj : bytes) :
  encode_utf8 html = Ok bh ->
  encode_utf8 css = Ok bc ->
  encode_utf8 js = Ok bj ->
  create_zip_bytes html css js
  = Ok (zipfile.write_archive
          [(lit "index.html", bh); (lit "style.css", bc);
           (lit "script.js", bj)]).
Proof.
  intros Hh Hc Hj. unfold create_zip_bytes, zipfile.writestr.
  rewrite Hh. simpl. rewrite Hc. simpl. rewrite Hj. reflexivity.
Qed.

(** The packager raises exactly when one of the texts has no UTF-8
    form. *)
Lemma create_zip_bytes_encodable (html css js : str) :
  encodable html = true -> encodable css = true -> encodable js = true ->
  exists z, create_zip_bytes html css js = Ok z.
Proof.
  intros Hh Hc Hj.
  destruct (encode_utf8_ok _ Hh) as [bh Eh].
  destruct (encode_utf8_ok _ Hc) as [bc Ec].
  destruct (encode_utf8_ok _ Hj) as [bj Ej].
  rewrite (create_zip_bytes_ok _ _ _ _ _ _ Eh Ec Ej). eauto.
Qed.

(** C2, as amended.  For three texts without lone surrogates the
    packager returns an archive, and reading that archive back gives
    three members, [index.html], [style.css] and [script.js] in that
    order, whose contents are the UTF-8 forms of the three texts;
    decoding them gives the three texts back. *)
Theorem C2_archive_round_trip (html css js : str) :
  zipfile.lawful C ->
  encodable html = true -> encodable css = true -> encodable js = true ->
  exists (archive bh bc bj : bytes),
    create_zip_bytes html css js = Ok archive /\
    zipfile.read_archive archive
    = Ok [(lit "index.html", bh); (lit "style.css", bc);
          (lit "script.js", bj)] /\
    encode_utf8 html = Ok bh /\ decode_utf8 bh = Ok html /\
    encode_utf8 css = Ok bc /\ decode_utf8 bc = Ok css /\
    encode_utf8 js = Ok bj /\ decode_utf8 bj = Ok js.
Proof.
  intros Hlaw Hh Hc Hj.
  destruct (encode_utf8_ok _ Hh) as [bh Eh].
  destruct (encode_utf8_ok _ Hc) as [bc Ec].
  destruct (encode_utf8_ok _ Hj) as [bj Ej].
  eexists _, bh, bc, bj.
  split; [apply create_zip_bytes_ok; eassumption|].
  split; [apply Hlaw; repeat constructor|].
  auto 10 using decode_encode_utf8.
Qed.

End PackagerProperties.

(** ** The example container format keeps the contract *)

Lemma plain_name_octets (n : str) :
  zipfile.plain_name n = true -> map Byte.to_N (map octet n) = n.
Proof.
  unfold zipfile.plain_name. intros H.
  apply andb_true_iff in H as [_ H].
  induction n as [|c n IH]; [reflexivity|].
  simpl in H. apply andb_true_iff in H as [Hc Hn].
  simpl. rewrite IH by assumption. f_equal.
  apply to_N_octet.
  repeat rewrite orb_true_iff in Hc. repeat rewrite andb_true_iff in Hc.
  repeat rewrite N.leb_le in Hc. repeat rewrite N.eqb_eq in Hc. lia.
Qed.

Lemma example_read_octet (b : byte) (rest : bytes)
    (arcname : option bytes) (cur : bytes) (done : list zipfile.member) :
  example_read (x01 :: b :: rest) arcname cur done
  = example_read rest arcname (b :: cur) done.
Proof. reflexivity. Qed.

Lemma example_read_end_of_name (rest cur : bytes)
    (done : list zipfile.member) :
  example_read (x00 :: x00 :: rest) None cur done
  = example_read rest (Some (rev cur)) [] done.
Proof. reflexivity. Qed.

Lemma example_read_end_of_member (rest n cur : bytes)
    (done : list zipfile.member) :
  example_read (x00 :: x01 :: rest) (Some n) cur done
  = example_read rest None [] ((map Byte.to_N n, rev cur) :: done).
Proof. reflexivity. Qed.

Lemma example_read_tagged (xs t : bytes) (arcname : option bytes)
    (cur : bytes) (done : list zipfile.member) :
  example_read (tagged xs ++ t) arcname cur done
  = example_read t arcname (rev xs ++ cur) done.
Proof.
  revert cur; induction xs as [|x xs IH]; intros cur; [reflexivity|].
  change (tagged (x :: xs) ++ t) with (x01 :: x :: (tagged xs ++ t)).
  rewrite example_read_octet, IH. simpl. now rewrite <- app_assoc.
Qed.

Lemma example_read_member (m : zipfile.member) (t : bytes)
    (done : list zipfile.member) :
  zipfile.plain_name (fst m) = true ->
  example_read (example_write_member m ++ t) None [] done
  = example_read t None [] (m :: done).
Proof.
  intros Hm. destruct m as [n ct]. unfold example_write_member.
  cbn [fst snd] in *. rewrite <- !app_assoc.
  rewrite example_read_tagged.
  change ([x00; x00] ++ tagged ct ++ [x00; x01] ++ t)
    with (x00 :: x00 :: (tagged ct ++ [x00; x01] ++ t)).
  rewrite example_read_end_of_name, example_read_tagged.
  change ([x00; x01] ++ t) with (x00 :: x01 :: t).
  rewrite example_read_end_of_member.
  rewrite !app_nil_r, !rev_involutive.
  now rewrite plain_name_octets.
Qed.

Lemma example_read_members (ms : list zipfile.member)
    (done : list zipfile.member) :
  Forall (fun m => zipfile.plain_name (fst m) = true) ms ->
  example_read (flat_map example_write_member ms) None [] done
  = Ok (rev done ++ ms).
Proof.
  revert done; induction ms as [|m ms IH]; intros done H.
  - simpl. now rewrite app_nil_r.
  - inversion H as [|? ? Hm Hms]; subst.
    cbn [flat_map]. rewrite example_read_member by assumption.
    rewrite IH by assumption. simpl. now rewrite <- app_assoc.
Qed.

Lemma example_codec_lawful : zipfile.lawful example_codec.
Proof.
  intros ms H. exact (example_read_members ms [] H).
Qed.

Lemma C2_archive_round_trip_witness :
  exists archive : bytes,
    create_zip_bytes (C := example_codec)
      (lit "<h1>Jane Doe</h1>") (lit "h1 { color: teal; }")
      (lit "console.log(1);") = Ok archive /\
    zipfile.read_archive (Codec := example_codec) archive
    = Ok [(lit "index.html", blit "<h1>Jane Doe</h1>");
          (lit "style.css", blit "h1 { color: teal; }");
          (lit "script.js", blit "console.log(1);")].
Proof.
  destruct (C2_archive_round_trip (C := example_codec)
              (lit "<h1>Jane Doe</h1>") (lit "h1 { color: teal; }")
              (lit "console.log(1);") example_codec_lawful
              eq_refl eq_refl eq_refl)
    as (archive & bh & bc & bj & Ez & Er & Eh & _ & Ec & _ & Ej & _).
  exists archive. split; [exact Ez|].
  rewrite Er.
  assert (E1 : encode_utf8 (lit "<h1>Jane Doe</h1>")
               = Ok (blit "<h1>Jane Doe</h1>")) by reflexivity.
  assert (E2 : encode_utf8 (lit "h1 { color: teal; }")
               = Ok (blit "h1 { color: teal; }")) by reflexivity.
  assert (E3 : encode_utf8 (lit "console.log(1);")
               = Ok (blit "console.log(1);")) by reflexivity.
  congruence.
Defined.

(** C2 as stated fails: a text that holds a lone surrogate has no UTF-8
    form, and the packager raises instead of returning an archive. *)
Lemma C2_lone_surrogate_raises :
  create_zip_bytes (C := example_codec) [55296%N] (lit "p{}") (lit "f()")
  = Raise UnicodeEncodeError.
Proof. reflexivity. Qed.

(** ** The session state *)

Lemma truthy_nonempty (s : str) : truthy s = true <-> s <> [].
Proof. destruct s; simpl; split; congruence. Qed.

Lemma all_nonempty_iff (w : website) :
  all_nonempty w = true <-> html w <> [] /\ css w <> [] /\ js w <> [].
Proof.
  unfold all_nonempty. rewrite !andb_true_iff, !truthy_nonempty. tauto.
Qed.

Lemma failed_segments_some (w : website) :
  1 <= failed_segments w <-> all_nonempty w = false.
Proof.
  unfold failed_segments, all_nonempty.
  destruct (truthy (html w)), (truthy (css w)), (truthy (js w)); simpl;
    split; intros; try reflexivity; try discriminate; lia.
Qed.

Section ScriptLogic.

Context (I : SessionState -> Prop).

Lemma keeps_ret {A} (a : A) : keeps I (ret a) (fun x => x = a).
Proof. intros st H; split; [exact H|]. simpl. congruence. Qed.

Lemma keeps_get : keeps I get I.
Proof. intros st H; split; [exact H|]. simpl. congruence. Qed.

Lemma keeps_emit (e : effect) : keeps I (emit e) (fun _ => True).
Proof. intros st H; split; [exact H|auto]. Qed.

Lemma keeps_call {A} (r : result A) : keeps I (call r) (fun a => r = Ok a).
Proof. intros st H; split; [exact H|auto]. Qed.

Lemma keeps_put (st' : SessionState) :
  I st' -> keeps I (put st') (fun _ => True).
Proof. intros H' st H; split; [exact H'|auto]. Qed.

Lemma keeps_seq {A B} (m : Script A) (k : A -> Script B)
    (Q : A -> Prop) (R : B -> Prop) :
  keeps I m Q -> (forall a, Q a -> keeps I (k a) R) ->
  keeps I (and_then m k) R.
Proof.
  intros Hm Hk st H. destruct (Hm st H) as [H1 HQ].
  unfold and_then, state_of, result_of in *.
  destruct (m st) as [[st1 fx1] [a|e]]; simpl in *.
  - destruct (Hk a (HQ a eq_refl) st1 H1) as [H2 HR].
    unfold state_of, result_of in *.
    destruct (k a st1) as [[st2 fx2] r]; simpl in *. auto.
  - split; [exact H1|discriminate].
Qed.

Lemma keeps_weaken {A} (m : Script A) (Q R : A -> Prop) :
  keeps I m Q -> (forall a, Q a -> R a) -> keeps I m R.
Proof.
  intros Hm HQR st H. destruct (Hm st H) as [H1 HQ]. split; auto.
Qed.

Lemma keeps_if {A} (b : bool) (m1 m2 : Script A) (Q : A -> Prop) :
  (b = true -> keeps I m1 Q) -> (b = false -> keeps I m2 Q) ->
  keeps I (if b then m1 else m2) Q.
Proof. destruct b; auto. Qed.

End ScriptLogic.

Section HandlerProperties.

Context {L : DocLibs} {C : zipfile.Codec}.

Lemma set_spec_text_keeps (v : str) :
  keeps packaged (set_spec_text v) (fun _ => True).
Proof. intros st H; split; [exact H|auto]. Qed.

Lemma set_html_code_keeps (v : str) :
  keeps packaged (set_html_code v) (fun _ => True).
Proof. intros st H; split; [exact H|auto]. Qed.

Lemma set_css_code_keeps (v : str) :
  keeps packaged (set_css_code v) (fun _ => True).
Proof. intros st H; split; [exact H|auto]. Qed.

Lemma set_js_code_keeps (v : str) :
  keeps packaged (set_js_code v) (fun _ => True).
Proof. intros st H; split; [exact H|auto]. Qed.

(** The one write to [zip_bytes]: allowed for what the packager returned
    on three nonempty texts. *)
Lemma set_zip_bytes_keeps (h c j : str) (z : bytes) :
  h <> [] -> c <> [] -> j <> [] -> create_zip_bytes h c j = Ok z ->
  keeps packaged (set_zip_bytes (Some z)) (fun _ => True).
Proof.
  intros Hh Hc Hj Hz st _. split; [|auto].
  unfold packaged; simpl. exists h, c, j. auto.
Qed.

Lemma on_generate_spec_keeps (i : Interaction) :
  keeps packaged (on_generate_spec i) (fun _ => True).
Proof.
  unfold on_generate_spec.
  destruct (uploaded_resume i) as [f|]; [|apply keeps_emit].
  eapply keeps_seq; [apply keeps_call|]. intros resume_text _.
  eapply keeps_seq; [|intros; apply keeps_emit].
  apply keeps_if with (Q := fun _ : unit => True); intros _.
  - apply keeps_emit.
  - eapply keeps_seq; [apply keeps_call|].
    intros spec _. apply set_spec_text_keeps.
Qed.

Lemma on_generate_site_keeps (i : Interaction) :
  keeps packaged (on_generate_site i) (fun _ => True).
Proof.
  unfold on_generate_site.
  eapply keeps_seq; [apply keeps_get|]. intros st0 _.
  eapply keeps_seq; [apply keeps_call|]. intros w _.
  eapply keeps_seq; [apply set_html_code_keeps|]. intros _ _.
  eapply keeps_seq; [apply set_css_code_keeps|]. intros _ _.
  eapply keeps_seq; [apply set_js_code_keeps|]. intros _ _.
  eapply keeps_seq; [|intros; apply keeps_emit].
  apply keeps_if with (Q := fun _ : unit => True); intros Hb.
  - apply (proj1 (all_nonempty_iff w)) in Hb. destruct Hb as (Hh & Hc & Hj).
    eapply keeps_seq; [apply keeps_emit|]. intros _ _.
    eapply keeps_seq; [apply keeps_call|]. intros z Hz.
    cbv beta in Hz. apply (set_zip_bytes_keeps _ _ _ _ Hh Hc Hj Hz).
  - eapply keeps_weaken; [apply keeps_ret|auto].
Qed.

Lemma run_script_keeps (i : Interaction) :
  keeps packaged (run_script i) (fun _ => True).
Proof.
  unfold run_script.
  eapply keeps_seq with (Q := fun _ : unit => True).
  - apply keeps_if; intros _;
      [apply on_generate_spec_keeps
      |eapply keeps_weaken; [apply keeps_ret|auto]].
  - intros _ _. eapply keeps_seq; [apply keeps_get|]. intros st0 _.
    apply keeps_if; intros _.
    + apply keeps_if; intros _.
      * apply on_generate_site_keeps.
      * eapply keeps_weaken; [apply keeps_ret|auto].
    + eapply keeps_weaken; [apply keeps_ret|auto].
Qed.

(** C10.  In every session state a user can bring about, [zip_bytes] is
    [None] or what [create_zip_bytes] returned for three nonempty
    texts. *)
Theorem C10_zip_bytes_invariant (st : SessionState) :
  reachable st ->
  zip_bytes st = None \/
  exists (h c j : str) (z : bytes),
    h <> [] /\ c <> [] /\ j <> [] /\
    create_zip_bytes h c j = Ok z /\ zip_bytes st = Some z.
Proof.
  intros Hr.
  assert (H : packaged st).
  { induction Hr as [|i st Hr IH]; [exact Logic.I|].
    apply (run_script_keeps i st IH). }
  unfold packaged in H. destruct (zip_bytes st) as [z|]; [right|left; auto].
  destruct H as (h & c & j & Hh & Hc & Hj & Hz).
  exists h, c, j, z. auto.
Qed.

(** What the second handler does once the model has answered. *)
Lemma on_generate_site_run (i : Interaction) (st : SessionState)
    (w : website) :
  build_website_from_spec (llm i) (spec_text st) = Ok w ->
  on_generate_site i st =
  let st1 := {| spec_text := spec_text st; html_code := html w;
                css_code := css w; js_code := js w;
                zip_bytes := zip_bytes st |} in
  if all_nonempty w then
    match create_zip_bytes (html w) (css w) (js w) with
    | Ok z =>
        ({| spec_text := spec_text st; html_code := html w;
            css_code := css w; js_code := js w; zip_bytes := Some z |},
         [Called_create_zip_bytes (html w) (css w) (js w);
          Shown_success "Website source code generated."],
         Ok tt)
    | Raise e =>
        (st1, [Called_create_zip_bytes (html w) (css w) (js w)], Raise e)
    end
  else (st1, [Shown_success "Website source code generated."], Ok tt).
Proof.
  intros Hw. unfold on_generate_site, and_then, get, call. rewrite Hw.
  unfold all_nonempty. cbn.
  destruct (truthy (html w) && truthy (css w) && truthy (js w)); cbn;
    [|reflexivity].
  destruct (create_zip_bytes (html w) (css w) (js w)); reflexivity.
Qed.

(** C8, as amended.  Once the model has answered, the second handler
    stores the three parsed segments, and it calls the packager, on
    those three segments, exactly when all three are nonempty; when one,
    two or three of them are empty the packager is not called, the
    handler ends without raising and [zip_bytes] stays as it was. *)
Theorem C8_packaging_gate (i : Interaction) (st : SessionState)
    (w : website) :
  build_website_from_spec (llm i) (spec_text st) = Ok w ->
  html_code (state_of (on_generate_site i st)) = html w /\
  css_code (state_of (on_generate_site i st)) = css w /\
  js_code (state_of (on_generate_site i st)) = js w /\
  (called_packager (effects_of (on_generate_site i st)) <->
   html w <> [] /\ css w <> [] /\ js w <> []) /\
  (forall h c j,
     In (Called_create_zip_bytes h c j) (effects_of (on_generate_site i st)) ->
     h = html w /\ c = css w /\ j = js w) /\
  (1 <= failed_segments w ->
   ~ called_packager (effects_of (on_generate_site i st)) /\
   result_of (on_generate_site i st) = Ok tt /\
   zip_bytes (state_of (on_generate_site i st)) = zip_bytes st).
Proof.
  intros Hw. rewrite (on_generate_site_run i st w Hw).
  rewrite failed_segments_some.
  rewrite <- all_nonempty_iff. unfold called_packager.
  destruct (all_nonempty w) eqn:Hb; cbn zeta.
  - destruct (create_zip_bytes (html w) (css w) (js w)) as [z|e];
      cbn [state_of effects_of result_of fst snd html_code css_code js_code];
      (do 3 (split; [reflexivity|]));
      (split; [split; [reflexivity|intros _; do 3 eexists; left; reflexivity]|]);
      (split; [|discriminate]);
      intros h c j [E|H]; try (injection E as <- <- <-; auto);
      try (destruct H as [E|[]]; discriminate E); destruct H.
  - cbn [state_of effects_of result_of fst snd html_code css_code js_code
         zip_bytes].
    do 3 (split; [reflexivity|]).
    assert (Hno : ~ (exists h c j : str,
               In (Called_create_zip_bytes h c j)
                  [Shown_success "Website source code generated."])).
    { intros (h & c & j & [E|[]]); discriminate E. }
    split; [split; [intros H; destruct (Hno H)|discriminate]|].
    split; [|auto]. intros h c j [E|[]]; discriminate E.
Qed.

(** A failed model call ends the run with the exception and leaves the
    session as it was. *)
Lemma on_generate_site_model_failure (i : Interaction) (st : SessionState)
    (e : exn) :
  build_website_from_spec (llm i) (spec_text st) = Raise e ->
  on_generate_site i st = (st, [], Raise e).
Proof.
  intros Hw. unfold on_generate_site, and_then, get, call. now rewrite Hw.
Qed.

End HandlerProperties.

Lemma C8_packaging_gate_witness :
  result_of (on_generate_site (C := example_codec)
               (press_generate_site sample_raw_no_css) session_with_spec)
  = Ok tt /\
  html_code (state_of (on_generate_site (C := example_codec)
               (press_generate_site sample_raw_no_css) session_with_spec))
  = lit "<h1>Jane Doe</h1>" /\
  zip_bytes (state_of (on_generate_site (C := example_codec)
               (press_generate_site sample_raw_no_css) session_with_spec))
  = None.
Proof.
  destruct (C8_packaging_gate (C := example_codec)
              (press_generate_site sample_raw_no_css) session_with_spec
              {| html := lit "<h1>Jane Doe</h1>"; css := [];
                 js := lit "console.log(1);" |} eq_refl)
    as (Hh & _ & _ & _ & _ & Hskip).
  destruct (Hskip ltac:(vm_compute; lia)) as (_ & Hr & Hz).
  split; [exact Hr|]. split; [exact Hh|exact Hz].
Defined.

(** C8 as stated fails where it lists the skipped cases: with zero
    segments empty the packager is called, not skipped. *)
Lemma C8_zero_failed_is_packaged :
  exists w : website,
    build_website_from_spec (llm (press_generate_site sample_raw))
                            (spec_text session_with_spec) = Ok w /\
    failed_segments w = 0 /\
    called_packager
      (effects_of (on_generate_site (C := example_codec)
                     (press_generate_site sample_raw) session_with_spec)).
Proof.
  eexists. split; [reflexivity|]. split; [reflexivity|].
  do 3 eexists. left. reflexivity.
Qed.

Lemma after_site_reachable :
  reachable (L := example_libs) (C := example_codec) after_site.
Proof.
  apply (reachable_run (L := example_libs) (C := example_codec)).
  apply (reachable_run (L := example_libs) (C := example_codec)).
  apply reachable_initial.
Qed.

Lemma C10_zip_bytes_invariant_witness :
  zip_bytes after_site = None \/
  exists (h c j : str) (z : bytes),
    h <> [] /\ c <> [] /\ j <> [] /\
    create_zip_bytes (C := example_codec) h c j = Ok z /\
    zip_bytes after_site = Some z.
Proof.
  apply (C10_zip_bytes_invariant (L := example_libs) (C := example_codec)).
  apply (reachable_run (L := example_libs) (C := example_codec)).
  apply (reachable_run (L := example_libs) (C := example_codec)).
  apply reachable_initial.
Defined.

(** The archive of the example session is really there. *)
Lemma after_site_archive :
  zip_bytes after_site
  = Some (zipfile.write_archive (Codec := example_codec)
            [(lit "index.html", blit "<h1>Jane Doe</h1>");
             (lit "style.css", blit "h1 { color: teal; }");
             (lit "script.js", blit "console.log(1);")]).
Proof. reflexivity. Qed.

(** The invariant does not tie the archive to the texts now stored: after
    a second generation whose stylesheet segment did not parse, the
    session shows the new markup and still offers the archive of the
    first generation. *)
Lemma stale_archive_reachable :
  reachable (L := example_libs) (C := example_codec) after_second_site /\
  html_code after_second_site = lit "<h1>J. Doe</h1>" /\
  zip_bytes after_second_site = zip_bytes after_site /\
  stale (C := example_codec) after_second_site.
Proof.
  split.
  { apply (reachable_run (L := example_libs) (C := example_codec)).
    apply after_site_reachable. }
  split; [reflexivity|]. split; [reflexivity|].
  exists (lit "<h1>Jane Doe</h1>"), (lit "h1 { color: teal; }"),
    (lit "console.log(1);").
  eexists. split; [reflexivity|]. split; [reflexivity|].
  vm_compute. discriminate.
Qed.

(** A failed model call in the example session changes nothing. *)
Example model_failure_keeps_session :
  run_script (L := example_libs) (C := example_codec)
    press_generate_site_failing after_site
  = (after_site, [], Raise (LibraryError "model call failed")).
Proof. reflexivity. Qed.

(** * Further properties *)

(** ** The extractors, again *)

Lemma split_scan_acc (sep cur s : str) :
  split_scan sep 0 cur s =
  match split_scan sep 0 [] s with
  | [] => []
  | q :: qs => (rev cur ++ q) :: qs
  end.
Proof.
  assert (G : forall s skip cur,
             split_scan sep skip cur s =
             match split_scan sep skip [] s with
             | [] => []
             | q :: qs => (rev cur ++ q) :: qs
             end).
  { clear. induction s as [|c s IH]; intros skip cur; simpl.
    - now rewrite app_nil_r.
    - destruct skip as [|k]; [|apply IH].
      destruct (starts_with sep (c :: s)).
      + now rewrite app_nil_r.
      + rewrite (IH 0 (c :: cur)), (IH 0 [c]).
        destruct (split_scan sep 0 [] s) as [|q qs]; [reflexivity|].
        simpl. now rewrite <- !app_assoc. }
  apply G.
Qed.

Lemma count_char_none (c : codepoint) (s : str) (k : nat) :
  count_char c s = 0 -> ~ occurs_at [c] k s.
Proof.
  unfold count_char, occurs_at. revert k; induction s as [|x s IH]; intros k H.
  - rewrite skipn_nil. simpl. discriminate.
  - simpl in H. destruct k as [|k]; simpl.
    + destruct (N.eqb c x); simpl in *; [discriminate|discriminate].
    + apply IH. destruct (N.eqb c x); simpl in H; [discriminate|exact H].
Qed.

(** Splitting a join on its one-character separator gives the chunks
    back, when no chunk holds the separator. *)
Lemma split_scan_join_char (c : codepoint) (chunks : list str) :
  chunks <> [] ->
  Forall (fun x => count_char c x = 0) chunks ->
  split_scan [c] 0 [] (join [c] chunks) = chunks.
Proof.
  induction chunks as [|x [|y rest] IH]; intros Hne Hfree.
  - congruence.
  - simpl. inversion Hfree as [|? ? Hx _]; subst.
    rewrite split_scan_no_match; [reflexivity|].
    intros k. apply count_char_none; assumption.
  - inversion Hfree as [|? ? Hx Hrest]; subst.
    rewrite join_cons by (simpl; lia).
    rewrite split_scan_before.
    + rewrite app_nil_r. rewrite split_scan_match by discriminate.
      rewrite rev_involutive. f_equal. apply IH; [discriminate|assumption].
    + intros k Hk Hocc. unfold occurs_at in Hocc.
      rewrite skipn_app in Hocc.
      replace (k - length x) with 0 in Hocc by lia. simpl skipn in Hocc at 2.
      assert (Hs : skipn k x <> []).
      { intros E. apply (f_equal (@length _)) in E.
        rewrite length_skipn in E. simpl in E. lia. }
      destruct (skipn k x) as [|z t] eqn:E; [congruence|].
      apply (count_char_none c x k Hx). unfold occurs_at. rewrite E.
      simpl in *. destruct (N.eqb c z); [reflexivity|discriminate].
Qed.

Lemma rev_flat_map {A B} (f : A -> list B) (l : list A) :
  rev (flat_map f l) = flat_map (fun x => rev (f x)) (rev l).
Proof.
  induction l as [|x l IH]; simpl; [reflexivity|].
  rewrite rev_app_distr, IH, flat_map_app. simpl. now rewrite app_nil_r.
Qed.

Lemma starts_with_lower_char (l x : codepoint) (S rest : str) :
  lowercase_target l ->
  starts_with (l :: S) (rev (lower_char x) ++ rest) = true <->
  ci_match x l /\ starts_with S rest = true.
Proof.
  intros (Hl & Hk & Hi & Hd & HK). unfold lower_char, ci_match.
  destruct (N.leb_spec 65 x) as [H1|H1]; [destruct (N.leb_spec x 90) as [H2|H2]|];
    cbn [andb].
  - simpl. rewrite andb_true_iff, N.eqb_eq. split.
    + intros [E S']; split; [right; repeat split; auto|assumption].
    + intros [[E|(_ & _ & E)] S']; [lia|auto].
  - destruct (N.eqb_spec x 304) as [->|H3].
    { simpl. destruct (N.eqb_spec l 775); [congruence|]. simpl.
      split; [discriminate|]. intros [[E|(_ & E & _)] _]; [congruence|lia]. }
    destruct (N.eqb_spec x 8490) as [->|H4].
    { simpl. destruct (N.eqb_spec l 107); [congruence|]. simpl.
      split; [discriminate|]. intros [[E|(_ & E & _)] _]; [congruence|lia]. }
    simpl. rewrite andb_true_iff, N.eqb_eq. split.
    + intros [E S']; split; [left; auto|assumption].
    + intros [[E|(_ & E & _)] S']; [auto|lia].
  - destruct (N.eqb_spec x 304) as [->|H3]; [lia|].
    destruct (N.eqb_spec x 8490) as [->|H4]; [lia|].
    simpl. rewrite andb_true_iff, N.eqb_eq. split.
    + intros [E S']; split; [left; auto|assumption].
    + intros [[E|(E & _)] S']; [auto|lia].
Qed.

Lemma starts_with_lowered (S R : str) :
  Forall lowercase_target S ->
  starts_with S (flat_map (fun x => rev (lower_char x)) R) = true <->
  exists E T, R = E ++ T /\ Forall2 ci_match E S.
Proof.
  intros HS. revert R; induction HS as [|l S Hl HS IH]; intros R.
  - simpl. split; [intros _; exists [], R; split; [reflexivity|constructor]|auto].
  - destruct R as [|x R].
    + simpl. split; [discriminate|].
      intros (E & T & HR & HF). inversion HF; subst. discriminate.
    + cbn [flat_map]. rewrite starts_with_lower_char by assumption.
      rewrite IH. split.
      * intros (Hx & E & T & -> & HF). exists (x :: E), T.
        split; [reflexivity|constructor; assumption].
      * intros (E & T & HR & HF). inversion HF as [|x' ? E' ? Hx HF']; subst.
        injection HR as -> ->. split; [assumption|]. exists E', T. auto.
Qed.

Lemma Forall2_rev {A B} (P : A -> B -> Prop) (l : list A) (m : list B) :
  Forall2 P l m -> Forall2 P (rev l) (rev m).
Proof.
  induction 1; simpl; [constructor|].
  apply Forall2_app; [assumption|repeat constructor; assumption].
Qed.

(** The suffix test on a lowered name holds exactly for the names that
    end in the suffix up to the case of ASCII letters. *)
Lemma endswith_lower_iff (nm suffix : str) :
  Forall lowercase_target suffix ->
  endswith (lower nm) suffix = true <->
  exists stem ext, nm = stem ++ ext /\ Forall2 ci_match ext suffix.
Proof.
  intros HS. unfold endswith, lower. rewrite rev_flat_map.
  rewrite starts_with_lowered by (apply Forall_rev; assumption).
  split.
  - intros (E & T & HR & HF). exists (rev T), (rev E). split.
    + rewrite <- rev_app_distr, <- HR. now rewrite rev_involutive.
    + rewrite <- (rev_involutive suffix). apply Forall2_rev; assumption.
  - intros (stem & ext & -> & HF). exists (rev ext), (rev stem).
    split; [apply rev_app_distr|apply Forall2_rev; assumption].
Qed.

Lemma pdf_suffix_targets : Forall lowercase_target (lit ".pdf").
Proof. repeat constructor; try lia; discriminate. Qed.

Lemma docx_suffix_targets : Forall lowercase_target (lit ".docx").
Proof. repeat constructor; try lia; discriminate. Qed.

Lemma ci_match_letter (x l : codepoint) :
  (97 <= l)%N -> (l <= 122)%N ->
  ci_match x l <-> x = l \/ x = (l - 32)%N.
Proof.
  unfold ci_match. intros Hlo Hhi.
  split; (intros [H|H]; [left; exact H|right; lia]).
Qed.

Lemma ci_match_dot (x : codepoint) : ci_match x 46%N <-> x = 46%N.
Proof. unfold ci_match. split; [intros [H|H]; lia|auto]. Qed.

(** X1.  The name tests of [extract_resume_text] hold exactly for the names
    whose last code points spell the extension in any letter case. *)
Theorem name_tests_exact (nm : str) :
  (endswith (lower nm) (lit ".pdf") = true <->
   exists stem a b c,
     nm = stem ++ [46%N; a; b; c] /\
     (a = 112 \/ a = 80)%N /\ (b = 100 \/ b = 68)%N /\ (c = 102 \/ c = 70)%N)
  /\
  (endswith (lower nm) (lit ".docx") = true <->
   exists stem a b c d,
     nm = stem ++ [46%N; a; b; c; d] /\
     (a = 100 \/ a = 68)%N /\ (b = 111 \/ b = 79)%N /\
     (c = 99 \/ c = 67)%N /\ (d = 120 \/ d = 88)%N).
Proof.
  split.
  - rewrite (endswith_lower_iff nm _ pdf_suffix_targets).
    change (lit ".pdf") with [46; 112; 100; 102]%N. split.
    + intros (stem & ext & -> & HF).
      inversion HF as [|z ? ? ? Hz HF1]; subst; clear HF.
      inversion HF1 as [|a ? ? ? Ha HF2]; subst; clear HF1.
      inversion HF2 as [|b ? ? ? Hb HF3]; subst; clear HF2.
      inversion HF3 as [|c ? ? ? Hc HF4]; subst; clear HF3.
      inversion HF4; subst; clear HF4.
      apply ci_match_dot in Hz. subst z.
      apply ci_match_letter in Ha, Hb, Hc; try lia.
      exists stem, a, b, c. repeat split; assumption.
    + intros (stem & a & b & c & -> & Ha & Hb & Hc).
      exists stem, [46%N; a; b; c]. split; [reflexivity|].
      repeat (apply Forall2_cons;
              [first [apply ci_match_dot; reflexivity
                     |apply ci_match_letter; [lia|lia|assumption]]|]).
      apply Forall2_nil.
  - rewrite (endswith_lower_iff nm _ docx_suffix_targets).
    change (lit ".docx") with [46; 100; 111; 99; 120]%N. split.
    + intros (stem & ext & -> & HF).
      inversion HF as [|z ? ? ? Hz HF1]; subst; clear HF.
      inversion HF1 as [|a ? ? ? Ha HF2]; subst; clear HF1.
      inversion HF2 as [|b ? ? ? Hb HF3]; subst; clear HF2.
      inversion HF3 as [|c ? ? ? Hc HF4]; subst; clear HF3.
      inversion HF4 as [|d ? ? ? Hd HF5]; subst; clear HF4.
      inversion HF5; subst; clear HF5.
      apply ci_match_dot in Hz. subst z.
      apply ci_match_letter in Ha, Hb, Hc, Hd; try lia.
      exists stem, a, b, c, d. repeat split; assumption.
    + intros (stem & a & b & c & d & -> & Ha & Hb & Hc & Hd).
      exists stem, [46%N; a; b; c; d]. split; [reflexivity|].
      repeat (apply Forall2_cons;
              [first [apply ci_match_dot; reflexivity
                     |apply ci_match_letter; [lia|lia|assumption]]|]).
      apply Forall2_nil.
Qed.

Section MoreExtractor.

Context {L : DocLibs}.

Lemma pdf_pages_loop_app (good : list Page) (texts : list (option str))
    (rest : list Page) (text_chunks : list str) :
  map Page_extract_text good = map Ok texts ->
  pdf_pages_loop (good ++ rest) text_chunks
  = pdf_pages_loop rest (text_chunks ++ map or_empty texts).
Proof.
  revert texts text_chunks; induction good as [|p good IH];
    intros [|t texts] acc H; simpl in H; try discriminate.
  - simpl. now rewrite app_nil_r.
  - injection H as Hp Hrest. simpl. rewrite Hp. simpl.
    rewrite (IH texts) by assumption. now rewrite <- app_assoc.
Qed.

(** X2.  When the text extraction of one page fails, the whole extraction
    fails with that exception: nothing is returned for the pages before
    it. *)
Theorem extract_text_from_pdf_failure (file_bytes : bytes)
    (good : list Page) (bad : Page) (rest : list Page)
    (texts : list (option str)) (e : exn) :
  PdfReader_pages file_bytes = Ok (good ++ bad :: rest) ->
  map Page_extract_text good = map Ok texts ->
  Page_extract_text bad = Raise e ->
  extract_text_from_pdf file_bytes = Raise e.
Proof.
  intros Hr Hg Hb. unfold extract_text_from_pdf. rewrite Hr. simpl.
  rewrite (pdf_pages_loop_app good texts) by assumption.
  simpl. rewrite Hb. reflexivity.
Qed.

(** X3.  The page texts can be read back from the extracted text, by
    splitting it at the newlines, when there is at least one page and no
    page text holds a newline. *)
Theorem extract_text_from_pdf_pages_back (file_bytes : bytes)
    (pages : list Page) (texts : list (option str)) :
  PdfReader_pages file_bytes = Ok pages ->
  map Page_extract_text pages = map Ok texts ->
  pages <> [] ->
  Forall (fun t => count_char 10%N (or_empty t) = 0) texts ->
  exists text,
    extract_text_from_pdf file_bytes = Ok text /\
    split text NL = Ok (map or_empty texts).
Proof.
  intros Hr Ht Hne Hfree. unfold extract_text_from_pdf. rewrite Hr. simpl.
  rewrite (pdf_pages_loop_ok pages texts []) by assumption. simpl.
  eexists. split; [reflexivity|].
  unfold NL. cbn [split]. f_equal.
  apply split_scan_join_char.
  - destruct texts; [destruct pages; [congruence|discriminate]|discriminate].
  - apply Forall_map. assumption.
Qed.

(** X4.  For a document that decodes into [M] paragraphs the extracted
    text is the paragraph texts in order, joined by newlines: its
    newlines are the [M - 1] separators and those inside the
    paragraphs. *)
Theorem extract_text_from_docx_join (file_bytes : bytes)
    (paragraphs : list Paragraph) :
  Document_paragraphs file_bytes = Ok paragraphs ->
  extract_text_from_docx file_bytes
  = Ok (join NL (map Paragraph_text paragraphs)) /\
  count_char 10%N (join NL (map Paragraph_text paragraphs))
  = (length paragraphs - 1)
    + list_sum (map (count_char 10%N) (map Paragraph_text paragraphs)).
Proof.
  intros Hd. unfold extract_text_from_docx. rewrite Hd.
  split; [reflexivity|].
  unfold NL. rewrite count_char_join. now rewrite length_map.
Qed.

End MoreExtractor.

(** ** Trimming and the parser, again *)

Lemma lstrip_all_space (s : str) :
  forallb isspace s = true -> lstrip s = [].
Proof.
  intros H. rewrite <- (app_nil_r s). now rewrite lstrip_spaces.
Qed.

Lemma lstrip_nil_iff (s : str) : lstrip s = [] <-> forallb isspace s = true.
Proof.
  split; [|apply lstrip_all_space].
  induction s as [|c s IH]; simpl; [reflexivity|].
  destruct (isspace c); [exact IH|discriminate].
Qed.

Lemma lstrip_head (s : str) :
  match lstrip s with
  | [] => True
  | c :: _ => isspace c = false
  end.
Proof.
  induction s as [|c s IH]; simpl; [exact I|].
  destruct (isspace c) eqn:E; [exact IH|exact E].
Qed.

Lemma lstrip_fixed (s : str) :
  match s with [] => True | c :: _ => isspace c = false end ->
  lstrip s = s.
Proof. destruct s as [|c s]; simpl; [reflexivity|]. now intros ->. Qed.

Lemma lstrip_idempotent (s : str) : lstrip (lstrip s) = lstrip s.
Proof. apply lstrip_fixed, lstrip_head. Qed.

Lemma lstrip_suffix (s : str) :
  exists ws, s = ws ++ lstrip s /\ forallb isspace ws = true.
Proof.
  induction s as [|c s (ws & E & H)]; simpl.
  - exists []. auto.
  - destruct (isspace c) eqn:Ec.
    + exists (c :: ws). simpl. rewrite Ec, H. split; [congruence|reflexivity].
    + exists []. auto.
Qed.

(** Stripping on the left keeps the last code point. *)
Lemma lstrip_app_keep (s t : str) :
  forallb isspace s = false -> lstrip (s ++ t) = lstrip s ++ t.
Proof.
  induction s as [|c s IH]; simpl; [discriminate|].
  destruct (isspace c); simpl; [exact IH|reflexivity].
Qed.

Lemma rstrip_spaces (s ws : str) :
  forallb isspace ws = true -> rstrip (s ++ ws) = rstrip s.
Proof.
  intros H. unfold rstrip. rewrite rev_app_distr.
  now rewrite lstrip_spaces by (rewrite forallb_rev_eq; assumption).
Qed.

(** Whitespace around a text does not change what [strip] returns. *)
Lemma strip_around (l s r : str) :
  forallb isspace l = true -> forallb isspace r = true ->
  strip (l ++ s ++ r) = strip s.
Proof.
  intros Hl Hr. unfold strip. rewrite lstrip_spaces by assumption.
  destruct (forallb isspace s) eqn:Hs.
  - rewrite (lstrip_all_space (s ++ r)), (lstrip_all_space s);
      [reflexivity|assumption|].
    rewrite forallb_app, Hs, Hr. reflexivity.
  - rewrite lstrip_app_keep by assumption. apply rstrip_spaces; assumption.
Qed.

Lemma strip_nil_iff (s : str) : strip s = [] <-> forallb isspace s = true.
Proof.
  unfold strip, rstrip. split.
  - intros H. apply (f_equal (@rev _)) in H. rewrite rev_involutive in H.
    simpl in H. apply lstrip_nil_iff in H. rewrite forallb_rev_eq in H.
    destruct (lstrip_suffix s) as (ws & E & Hws).
    rewrite E, forallb_app, Hws, H. reflexivity.
  - intros H. now rewrite (lstrip_all_space s H).
Qed.

Lemma rstrip_keeps_head (s : str) :
  match s with [] => True | c :: _ => isspace c = false end ->
  match rstrip s with [] => s = [] | c :: _ => isspace c = false /\
    exists t, s = c :: t end.
Proof.
  destruct s as [|c s]; [simpl; auto|]. intros Hc.
  unfold rstrip.
  destruct (lstrip_suffix (rev (c :: s))) as (ws & E & Hws).
  apply (f_equal (@rev _)) in E. rewrite rev_involutive, rev_app_distr in E.
  destruct (rev (lstrip (rev (c :: s)))) as [|d t] eqn:R.
  - simpl in E. exfalso.
    assert (forallb isspace (c :: s) = true)
      by (rewrite E, forallb_rev_eq; assumption).
    simpl in H. rewrite Hc in H. discriminate.
  - simpl in E. injection E as <- E. split; [assumption|eauto].
Qed.

(** What [strip] returns neither starts nor ends with whitespace: it is
    left as it is by [strip]. *)
Lemma strip_idempotent (s : str) : strip (strip s) = strip s.
Proof.
  unfold strip at 1.
  assert (Hl : lstrip (strip s) = strip s).
  { apply lstrip_fixed. unfold strip.
    pose proof (rstrip_keeps_head (lstrip s) (lstrip_head s)) as H.
    destruct (rstrip (lstrip s)); [exact I|apply H]. }
  rewrite Hl. unfold strip, rstrip.
  rewrite rev_involutive, lstrip_idempotent. reflexivity.
Qed.

Lemma find_complete (pat s : str) (i : nat) :
  occurs_at pat i s -> (forall k, k < i -> ~ occurs_at pat k s) ->
  i <= length s -> find pat s = Some i.
Proof.
  revert i; induction s as [|c s IH]; intros i Hocc Hmin Hlen; cbn [find].
  - simpl in Hlen. assert (i = 0) by lia; subst.
    apply occurs_at_0 in Hocc. now rewrite Hocc.
  - destruct (starts_with pat (c :: s)) eqn:E.
    + destruct i as [|i]; [reflexivity|].
      exfalso. apply (Hmin 0); [lia|]. apply occurs_at_0; assumption.
    + destruct i as [|i]; [rewrite occurs_at_0 in Hocc; congruence|].
      rewrite (IH i); [reflexivity| | |simpl in Hlen; lia].
      * apply occurs_at_S in Hocc; assumption.
      * intros k Hk Ho. apply (Hmin (S k)); [lia|].
        apply occurs_at_S; assumption.
Qed.

Lemma count_occurrences_zero (pat s : str) (k : nat) :
  pat <> [] -> count_occurrences pat s = 0 -> ~ occurs_at pat k s.
Proof.
  intros Hp. revert k; induction s as [|c s IH]; intros k H.
  - unfold occurs_at. rewrite skipn_nil.
    destruct pat; [congruence|simpl; discriminate].
  - simpl in H. destruct (starts_with pat (c :: s)) eqn:E; [discriminate|].
    destruct k as [|k].
    + rewrite occurs_at_0. congruence.
    + rewrite occurs_at_S. apply IH. exact H.
Qed.

Lemma starts_with_skipn_closed (pat a b : str) (k : nat) :
  closed_on_the_right pat a = true -> k < length a ->
  starts_with pat (skipn k (a ++ b)) = starts_with pat (skipn k a).
Proof.
  revert k; induction a as [|c a IH]; intros k H Hk; [simpl in Hk; lia|].
  destruct k as [|k].
  - cbn [closed_on_the_right] in H. apply andb_true_iff in H as [H _].
    simpl skipn. change (c :: a ++ b) with ((c :: a) ++ b).
    apply orb_true_iff in H as [H|H].
    + apply starts_with_app_long. apply Nat.leb_le; assumption.
    + apply negb_true_iff in H.
      destruct (Nat.le_gt_cases (length pat) (length (c :: a))) as [Hle|Hgt].
      * apply starts_with_app_long; assumption.
      * rewrite starts_with_app_mismatch by assumption.
        symmetry; apply starts_with_short; assumption.
  - simpl. apply IH; [|simpl in Hk; lia].
    eapply closed_on_the_right_tail; eassumption.
Qed.

Lemma starts_with_members (u pat : str) :
  starts_with u pat = true -> forall y, In y u -> In y pat.
Proof.
  revert pat; induction u as [|x u IH]; intros pat H y Hy; [destruct Hy|].
  destruct pat as [|p pat]; [discriminate|]. simpl in H.
  apply andb_true_iff in H as [Hx Hu]. apply N.eqb_eq in Hx. subst p.
  destruct Hy as [->|Hy]; [left; reflexivity|right; eapply IH; eassumption].
Qed.

(** A text that ends in a code point foreign to [pat] lets no occurrence
    of [pat] run past its end. *)
Lemma closed_on_the_right_end (pat a : str) (x : codepoint) :
  ~ In x pat -> closed_on_the_right pat (a ++ [x]) = true.
Proof.
  intros Hx. induction a as [|c a IH].
  - cbn [app closed_on_the_right]. rewrite andb_true_r.
    apply orb_true_iff. right. apply negb_true_iff.
    destruct (starts_with [x] pat) eqn:E; [|reflexivity].
    exfalso. apply Hx. apply (starts_with_members _ _ E). left; reflexivity.
  - change ((c :: a) ++ [x]) with (c :: (a ++ [x])).
    cbn [closed_on_the_right]. rewrite IH, andb_true_r.
    apply orb_true_iff. right. apply negb_true_iff.
    destruct (starts_with (c :: a ++ [x]) pat) eqn:E; [|reflexivity].
    exfalso. apply Hx. apply (starts_with_members _ _ E).
    right. apply in_or_app. right. left; reflexivity.
Qed.

Lemma closed_on_the_left_foreign (pat b : str) (x : codepoint) :
  ~ In x pat -> closed_on_the_left pat (x :: b) = true.
Proof.
  intros Hx. unfold closed_on_the_left. apply forallb_forall.
  intros k Hk. apply in_seq in Hk. apply negb_true_iff.
  destruct (skipn k pat) as [|p t] eqn:E.
  - apply (f_equal (@length _)) in E. rewrite length_skipn in E.
    simpl in E. lia.
  - simpl. destruct (N.eqb_spec p x) as [->|]; [|reflexivity].
    exfalso. apply Hx. rewrite <- (firstn_skipn k pat), E.
    apply in_or_app. right. left; reflexivity.
Qed.

(** Occurrences of [pat] on the two sides of a code point foreign to it
    add up. *)
Lemma count_occurrences_around (pat a b : str) (x : codepoint) :
  pat <> [] -> ~ In x pat ->
  count_occurrences pat (a ++ x :: b)
  = count_occurrences pat a + count_occurrences pat b.
Proof.
  intros Hp Hx.
  rewrite count_occurrences_app_left_closed
    by (assumption || apply closed_on_the_left_foreign; assumption).
  f_equal. cbn [count_occurrences].
  destruct pat as [|p t]; [congruence|]. simpl.
  destruct (N.eqb_spec p x) as [->|]; [|reflexivity].
  exfalso. apply Hx. left; reflexivity.
Qed.

(** A block [marker \n text \n marker] is found wherever it stands: the
    text before it must not hold the marker and must be empty or end in
    a newline; anything may follow. *)
Lemma extract_between_block (marker before text after : str) :
  marker <> [] -> ~ In 10%N marker ->
  count_occurrences marker before = 0 ->
  before = [] \/ (exists p, before = p ++ NL) ->
  count_occurrences marker text = 0 ->
  extract_between marker
    (before ++ marker ++ NL ++ text ++ NL ++ marker ++ after)
  = Ok (strip text).
Proof.
  intros Hm Hnl Hb Hend Ht.
  set (raw := before ++ marker ++ NL ++ text ++ NL ++ marker ++ after).
  assert (Hclosed : closed_on_the_right marker before = true).
  { destruct Hend as [->|[p ->]]; [reflexivity|].
    apply closed_on_the_right_end; assumption. }
  assert (F1 : find marker raw = Some (length before)).
  { apply find_complete.
    - unfold occurs_at, raw. rewrite skipn_app, skipn_all, Nat.sub_diag.
      simpl. apply starts_with_app.
    - intros k Hk. unfold occurs_at, raw.
      rewrite starts_with_skipn_closed by assumption.
      apply count_occurrences_zero; assumption.
    - unfold raw. rewrite length_app. lia. }
  set (inner := NL ++ text ++ NL).
  assert (Hinner : count_occurrences marker inner = 0).
  { unfold inner, NL. change ([10%N] ++ text ++ [10%N])
      with ([] ++ 10%N :: (text ++ 10%N :: [])).
    rewrite !count_occurrences_around by assumption.
    simpl. lia. }
  assert (E : skipn (length before + length marker) raw
              = inner ++ marker ++ after).
  { unfold raw, inner. rewrite app_assoc, skipn_app, length_app.
    rewrite skipn_all2 by (rewrite length_app; lia).
    rewrite Nat.sub_diag. simpl. now rewrite <- !app_assoc. }
  assert (F2 : find marker (inner ++ marker ++ after) = Some (length inner)).
  { apply find_complete.
    - unfold occurs_at. rewrite skipn_app, skipn_all, Nat.sub_diag.
      simpl. apply starts_with_app.
    - intros k Hk. unfold occurs_at.
      rewrite starts_with_skipn_closed;
        [apply count_occurrences_zero; assumption| |assumption].
      unfold inner. replace (NL ++ text ++ NL) with ((NL ++ text) ++ [10%N])
        by (now rewrite <- app_assoc).
      apply closed_on_the_right_end; assumption.
    - rewrite length_app. lia. }
  rewrite (extract_between_segment marker raw (length before)
             (length before + length marker + length inner) Hm F1).
  - unfold segment_between, slice. rewrite E.
    replace (length before + length marker + length inner
             - (length before + length marker)) with (length inner) by lia.
    rewrite firstn_app, firstn_all, Nat.sub_diag. simpl firstn.
    rewrite app_nil_r. f_equal. unfold inner.
    apply strip_around; reflexivity.
  - unfold second_occurrence. rewrite F1, E, F2. reflexivity.
Qed.

Example prompt_ends_with_format :
  endswith SPEC_TO_WEBSITE_SYSTEM
    (format_response (lit "[HTML CODE]") (lit "[CSS CODE]") (lit "[JS CODE]"))
  = true.
Proof. reflexivity. Qed.

Lemma count_occurrences_block (marker other text : str) :
  marker <> [] -> ~ In 10%N marker ->
  count_occurrences marker other = 0 ->
  count_occurrences marker text = 0 ->
  count_occurrences marker (block other text) = 0.
Proof.
  intros Hm Hnl Ho Ht. unfold block, NL.
  change (other ++ [10%N] ++ text ++ [10%N] ++ other ++ [10%N])
    with (other ++ 10%N :: (text ++ 10%N :: (other ++ 10%N :: []))).
  rewrite !count_occurrences_around by assumption.
  rewrite Ho, Ht. reflexivity.
Qed.

Lemma block_ends (other text : str) :
  exists p, block other text = p ++ NL.
Proof.
  exists (other ++ NL ++ text ++ NL ++ other). unfold block.
  now rewrite <- !app_assoc.
Qed.

Lemma count_occurrences_after_block (marker other text rest : str) :
  ~ In 10%N marker ->
  count_occurrences marker (block other text ++ rest)
  = count_occurrences marker (block other text)
    + count_occurrences marker rest.
Proof.
  intros Hnl. destruct (block_ends other text) as [p ->].
  apply count_occurrences_app_right_closed.
  apply closed_on_the_right_end; assumption.
Qed.

Lemma marker_html_no_newline : ~ In 10%N MARKER_HTML.
Proof. simpl. intuition discriminate. Qed.

Lemma marker_css_no_newline : ~ In 10%N MARKER_CSS.
Proof. simpl. intuition discriminate. Qed.

Lemma marker_js_no_newline : ~ In 10%N MARKER_JS.
Proof. simpl. intuition discriminate. Qed.

(** X5.  A response written in the format the prompt asks for is parsed
    back into the three texts, trimmed, when the markup holds none of the
    three markers, the stylesheet neither its own marker nor the script
    marker, and the script not its own marker. *)
Theorem format_then_parse (h c j : str) :
  count_occurrences MARKER_HTML h = 0 ->
  count_occurrences MARKER_CSS h = 0 ->
  count_occurrences MARKER_JS h = 0 ->
  count_occurrences MARKER_CSS c = 0 ->
  count_occurrences MARKER_JS c = 0 ->
  count_occurrences MARKER_JS j = 0 ->
  parse_raw (format_response h c j)
  = Ok {| html := strip h; css := strip c; js := strip j |}.
Proof.
  intros Hhh Hch Hjh Hcc Hjc Hjj.
  apply parse_raw_fields; unfold format_response.
  - change (block MARKER_HTML h ++ block MARKER_CSS c ++ block MARKER_JS j)
      with ([] ++ block MARKER_HTML h
               ++ block MARKER_CSS c ++ block MARKER_JS j).
    unfold block at 1. rewrite <- !app_assoc.
    apply extract_between_block;
      auto using marker_html_nonempty, marker_html_no_newline.
  - unfold block at 2. rewrite <- !app_assoc.
    apply extract_between_block;
      auto using marker_css_nonempty, marker_css_no_newline.
    + apply count_occurrences_block;
        auto using marker_css_nonempty, marker_css_no_newline.
    + right. apply block_ends.
  - rewrite app_assoc. unfold block at 3. rewrite <- !app_assoc.
    rewrite (app_assoc (block MARKER_HTML h)).
    apply extract_between_block;
      auto using marker_js_nonempty, marker_js_no_newline.
    + rewrite count_occurrences_after_block by apply marker_js_no_newline.
      rewrite !count_occurrences_block;
        auto using marker_js_nonempty, marker_js_no_newline.
    + right. destruct (block_ends MARKER_CSS c) as [p ->].
      exists (block MARKER_HTML h ++ p). now rewrite <- app_assoc.
Qed.

(** X6.  For each of the three markers of the parser, a delimited block
    is found wherever it stands in the response: whatever comes before
    it, as long as that is whole lines without the marker, and whatever
    comes after it. *)
Theorem block_found_anywhere (marker before text after : str) :
  In marker [MARKER_HTML; MARKER_CSS; MARKER_JS] ->
  count_occurrences marker before = 0 ->
  before = [] \/ (exists p, before = p ++ NL) ->
  count_occurrences marker text = 0 ->
  extract_between marker
    (before ++ marker ++ NL ++ text ++ NL ++ marker ++ after)
  = Ok (strip text).
Proof.
  intros Hm Hb Hl Ht.
  assert (Hmarker : marker <> [] /\ ~ In 10%N marker).
  { destruct Hm as [<-|[<-|[<-|[]]]]; split;
      solve [ discriminate
            | apply marker_html_no_newline
            | apply marker_css_no_newline
            | apply marker_js_no_newline ]. }
  destruct Hmarker as [Hne Hnl].
  now apply extract_between_block.
Qed.

(** X7.  A marker that is opened and never closed gives the empty
    segment. *)
Theorem unclosed_marker_gives_empty (marker raw : str) (i : nat) :
  marker <> [] ->
  first_occurrence marker raw = Some i ->
  second_occurrence marker raw = None ->
  extract_between marker raw = Ok [].
Proof.
  unfold first_occurrence, second_occurrence. intros Hm F1 F2.
  rewrite F1 in F2.
  destruct (find marker (skipn (i + length marker) raw)) as [d|] eqn:F;
    [discriminate|].
  apply extract_between_short; [assumption|].
  rewrite split_scan_find, F1 by assumption.
  rewrite split_scan_find, F by assumption. simpl. lia.
Qed.

(** X8.  A segment of whitespace only comes out empty, as a segment that
    could not be found does. *)
Theorem blank_segment_gives_empty (marker raw : str) (i j : nat) :
  marker <> [] ->
  first_occurrence marker raw = Some i ->
  second_occurrence marker raw = Some j ->
  forallb isspace (segment_between marker raw i j) = true ->
  extract_between marker raw = Ok [].
Proof.
  intros Hm F1 F2 Hb.
  rewrite (extract_between_segment marker raw i j Hm F1 F2).
  f_equal. apply strip_nil_iff; assumption.
Qed.

Lemma extract_between_trimmed (marker raw v : str) :
  extract_between marker raw = Ok v -> strip v = v.
Proof.
  unfold extract_between. destruct (split raw marker) as [parts|]; simpl;
    [|discriminate].
  destruct (length parts <? 3); [intros [= <-]; reflexivity|].
  destruct (index parts 1) as [p|]; simpl; [|discriminate].
  intros [= <-]. apply strip_idempotent.
Qed.

Lemma build_website_trimmed (m : LLM) (text : str) (w : website) :
  build_website_from_spec m text = Ok w ->
  strip (html w) = html w /\ strip (css w) = css w /\ strip (js w) = js w.
Proof.
  unfold build_website_from_spec.
  destruct (m _) as [raw|]; simpl; [|discriminate].
  unfold parse_raw.
  destruct (extract_between MARKER_HTML raw) as [h|] eqn:Eh; simpl;
    [|discriminate].
  destruct (extract_between MARKER_CSS raw) as [c|] eqn:Ec; simpl;
    [|discriminate].
  destruct (extract_between MARKER_JS raw) as [j|] eqn:Ej; simpl;
    [|discriminate].
  intros [= <-]. simpl.
  split; [|split]; eapply extract_between_trimmed; eassumption.
Qed.

Section MoreHandlers.

Context {L : DocLibs} {C : zipfile.Codec}.

Lemma on_generate_spec_trimmed (i : Interaction) :
  keeps trimmed_session (on_generate_spec i) (fun _ => True).
Proof.
  unfold on_generate_spec.
  destruct (uploaded_resume i) as [f|]; [|apply keeps_emit].
  eapply keeps_seq; [apply keeps_call|]. intros resume_text _.
  eapply keeps_seq; [|intros; apply keeps_emit].
  apply keeps_if with (Q := fun _ : unit => True); intros _.
  - apply keeps_emit.
  - eapply keeps_seq; [apply keeps_call|].
    intros spec _ st H. split; [exact H|auto].
Qed.

Lemma on_generate_site_trimmed (i : Interaction) :
  keeps trimmed_session (on_generate_site i) (fun _ => True).
Proof.
  unfold on_generate_site.
  eapply keeps_seq; [apply keeps_get|]. intros st0 _.
  eapply keeps_seq; [apply keeps_call|]. intros w Hw.
  apply build_website_trimmed in Hw. destruct Hw as (Hh & Hc & Hj).
  eapply keeps_seq with (Q := fun _ : unit => True).
  { intros st (_ & H2 & H3). split; [|auto]. repeat split; assumption. }
  intros _ _.
  eapply keeps_seq with (Q := fun _ : unit => True).
  { intros st (H1 & _ & H3). split; [|auto]. repeat split; assumption. }
  intros _ _.
  eapply keeps_seq with (Q := fun _ : unit => True).
  { intros st (H1 & H2 & _). split; [|auto]. repeat split; assumption. }
  intros _ _.
  eapply keeps_seq; [|intros; apply keeps_emit].
  apply keeps_if with (Q := fun _ : unit => True); intros Hb.
  - eapply keeps_seq; [apply keeps_emit|]. intros _ _.
    eapply keeps_seq; [apply keeps_call|]. intros z Hz.
    intros st H. split; [exact H|auto].
  - eapply keeps_weaken; [apply keeps_ret|auto].
Qed.

Lemma run_script_trimmed (i : Interaction) :
  keeps trimmed_session (run_script i) (fun _ => True).
Proof.
  unfold run_script.
  eapply keeps_seq with (Q := fun _ : unit => True).
  - apply keeps_if; intros _;
      [apply on_generate_spec_trimmed
      |eapply keeps_weaken; [apply keeps_ret|auto]].
  - intros _ _. eapply keeps_seq; [apply keeps_get|]. intros st0 _.
    apply keeps_if; intros _.
    + apply keeps_if; intros _.
      * apply on_generate_site_trimmed.
      * eapply keeps_weaken; [apply keeps_ret|auto].
    + eapply keeps_weaken; [apply keeps_ret|auto].
Qed.

(** X9.  In every session state a user can bring about, the stored markup,
    stylesheet and script carry no whitespace at either end. *)
Theorem stored_segments_trimmed (st : SessionState) :
  reachable st ->
  strip (html_code st) = html_code st /\
  strip (css_code st) = css_code st /\
  strip (js_code st) = js_code st.
Proof.
  intros Hr. change (trimmed_session st).
  induction Hr as [|i st Hr IH]; [repeat split|].
  apply (run_script_trimmed i st IH).
Qed.

End MoreHandlers.

(** ** The packager, the handlers and the right column *)

Lemma encode_utf8_outcome (s : str) :
  match encode_utf8 s with
  | Ok b => has_surrogate s = false /\ (s <> [] -> b <> [])
  | Raise e => e = UnicodeEncodeError /\ has_surrogate s = true
  end.
Proof.
  induction s as [|c s IH]; simpl; [split; [reflexivity|congruence]|].
  unfold encode_codepoint at 1.
  destruct (is_surrogate c) eqn:Hs.
  - unfold is_surrogate in Hs. apply andb_true_iff in Hs as [Hlo _].
    apply N.leb_le in Hlo.
    destruct (N.ltb_spec c 128); [lia|].
    destruct (N.ltb_spec c 2048); [lia|]. simpl. auto.
  - assert (G : forall b : bytes, b <> [] ->
              match (bs <- encode_utf8 s ;; Ok (b ++ bs)) with
              | Ok b0 => false || has_surrogate s = false
                         /\ (c :: s <> [] -> b0 <> [])
              | Raise e => e = UnicodeEncodeError
                           /\ false || has_surrogate s = true
              end).
    { intros b Hb. destruct (encode_utf8 s) as [bs|e]; simpl.
      - split; [apply IH|]. intros _ E. apply app_eq_nil in E. tauto.
      - exact IH. }
    destruct (c <? 128)%N; [apply G; discriminate|].
    destruct (c <? 2048)%N; [apply G; discriminate|].
    destruct (c <? 65536)%N; apply G; discriminate.
Qed.

Section MorePackager.

Context {C : zipfile.Codec}.

Lemma create_zip_bytes_inv (h c j : str) (z : bytes) :
  create_zip_bytes h c j = Ok z ->
  exists bh bc bj,
    encode_utf8 h = Ok bh /\ encode_utf8 c = Ok bc /\ encode_utf8 j = Ok bj /\
    z = zipfile.write_archive
          [(lit "index.html", bh); (lit "style.css", bc);
           (lit "script.js", bj)].
Proof.
  unfold create_zip_bytes, zipfile.writestr.
  destruct (encode_utf8 h) as [bh|]; simpl; [|discriminate].
  destruct (encode_utf8 c) as [bc|]; simpl; [|discriminate].
  destruct (encode_utf8 j) as [bj|]; simpl; [|discriminate].
  intros [= <-]. exists bh, bc, bj. auto.
Qed.

(** What the packager does, by the surrogates of the three texts. *)
Lemma create_zip_bytes_outcome (h c j : str) :
  match create_zip_bytes h c j with
  | Ok _ => has_surrogate (h ++ c ++ j) = false
  | Raise e => e = UnicodeEncodeError /\ has_surrogate (h ++ c ++ j) = true
  end.
Proof.
  unfold has_surrogate. rewrite !existsb_app.
  unfold create_zip_bytes, zipfile.writestr.
  pose proof (encode_utf8_outcome h) as Hh.
  pose proof (encode_utf8_outcome c) as Hc.
  pose proof (encode_utf8_outcome j) as Hj.
  unfold has_surrogate in *.
  destruct (encode_utf8 h) as [bh|eh]; simpl;
    [|destruct Hh as [-> ->]; auto].
  destruct (encode_utf8 c) as [bc|ec]; simpl;
    [|destruct Hh as [-> _], Hc as [-> ->]; auto].
  destruct (encode_utf8 j) as [bj|ej]; simpl.
  - destruct Hh as [-> _], Hc as [-> _], Hj as [-> _]. reflexivity.
  - destruct Hh as [-> _], Hc as [-> _], Hj as [-> ->]. auto.
Qed.

(** X10.  The packager fails exactly when one of the three texts holds a
    surrogate code point, and then with [UnicodeEncodeError]; it returns
    an archive exactly when none does. *)
Theorem packager_fails_on_surrogates_only (h c j : str) :
  (create_zip_bytes h c j = Raise UnicodeEncodeError
   <-> has_surrogate (h ++ c ++ j) = true) /\
  ((exists z, create_zip_bytes h c j = Ok z)
   <-> has_surrogate (h ++ c ++ j) = false).
Proof.
  pose proof (create_zip_bytes_outcome h c j) as H.
  destruct (create_zip_bytes h c j) as [z|e].
  - rewrite H. split; split; try discriminate; intros _;
      [reflexivity | now exists z].
  - destruct H as [-> ->]. split; split; try discriminate;
      try reflexivity.
    intros [z Hz]. discriminate.
Qed.

End MorePackager.

Section MoreSession.

Context {L : DocLibs} {C : zipfile.Codec}.

(** What the first handler does, case by case. *)
Lemma on_generate_spec_run (i : Interaction) (st : SessionState) :
  on_generate_spec i st =
  match uploaded_resume i with
  | None => (st, [Shown_error "Please upload a resume first."], Ok tt)
  | Some f =>
      match extract_resume_text (Some f) with
      | Raise e => (st, [], Raise e)
      | Ok resume_text =>
          if truthy (strip resume_text) then
            match build_spec_from_resume (llm i) resume_text with
            | Raise e => (st, [], Raise e)
            | Ok spec =>
                (with_spec_text st spec,
                 [Shown_success
                    "Website specification generated successfully."],
                 Ok tt)
            end
          else
            (st,
             [Shown_error
                "Could not extract text from the uploaded file. Check the format.";
              Shown_success "Website specification generated successfully."],
             Ok tt)
      end
  end.
Proof.
  unfold on_generate_spec.
  destruct (uploaded_resume i) as [f|]; [|reflexivity].
  unfold and_then, call.
  destruct (extract_resume_text (Some f)) as [text|e]; [|reflexivity].
  destruct (truthy (strip text)); cbn; [|reflexivity].
  destruct (build_spec_from_resume (llm i) text); reflexivity.
Qed.

(** The first handler keeps the stored archive. *)
Lemma on_generate_spec_zip_bytes (i : Interaction) (st : SessionState) :
  zip_bytes (state_of (on_generate_spec i st)) = zip_bytes st.
Proof.
  rewrite on_generate_spec_run.
  destruct (uploaded_resume i) as [f|]; [|reflexivity].
  destruct (extract_resume_text (Some f)) as [text|e]; [|reflexivity].
  destruct (truthy (strip text)); [|reflexivity].
  destruct (build_spec_from_resume (llm i) text); reflexivity.
Qed.

(** X11.  Generating a specification never touches the stored markup,
    stylesheet, script or archive. *)
Theorem generate_spec_keeps_site (i : Interaction) (st : SessionState) :
  html_code (state_of (on_generate_spec i st)) = html_code st /\
  css_code (state_of (on_generate_spec i st)) = css_code st /\
  js_code (state_of (on_generate_spec i st)) = js_code st /\
  zip_bytes (state_of (on_generate_spec i st)) = zip_bytes st.
Proof.
  rewrite on_generate_spec_run.
  destruct (uploaded_resume i) as [f|]; [|repeat split].
  destruct (extract_resume_text (Some f)) as [text|e]; [|repeat split].
  destruct (truthy (strip text)); [|repeat split].
  destruct (build_spec_from_resume (llm i) text); repeat split.
Qed.

(** X12.  When the text extracted from the uploaded file has only
    whitespace, the model is not asked, the stored specification stays,
    and the error message is followed by the success message. *)
Theorem generate_spec_blank_text (i : Interaction) (st : SessionState)
    (f : UploadedFile) (resume_text : str) :
  uploaded_resume i = Some f ->
  extract_resume_text (Some f) = Ok resume_text ->
  forallb isspace resume_text = true ->
  on_generate_spec i st =
  (st,
   [Shown_error
      "Could not extract text from the uploaded file. Check the format.";
    Shown_success "Website specification generated successfully."],
   Ok tt).
Proof.
  intros Hf He Hb. rewrite on_generate_spec_run, Hf, He.
  apply strip_nil_iff in Hb. now rewrite Hb.
Qed.

(** X13.  When the extracted text has a character that is not whitespace,
    whatever the model answers becomes the stored specification, as it
    is, and a failure of the model leaves the session as it was. *)
Theorem generate_spec_stores_answer (i : Interaction) (st : SessionState)
    (f : UploadedFile) (resume_text : str) :
  uploaded_resume i = Some f ->
  extract_resume_text (Some f) = Ok resume_text ->
  forallb isspace resume_text = false ->
  match build_spec_from_resume (llm i) resume_text with
  | Ok spec =>
      on_generate_spec i st =
      (with_spec_text st spec,
       [Shown_success "Website specification generated successfully."],
       Ok tt)
  | Raise e => on_generate_spec i st = (st, [], Raise e)
  end.
Proof.
  intros Hf He Hb. rewrite on_generate_spec_run, Hf, He.
  assert (Ht : truthy (strip resume_text) = true).
  { destruct (strip resume_text) eqn:E; [|reflexivity].
    apply strip_nil_iff in E. congruence. }
  rewrite Ht.
  destruct (build_spec_from_resume (llm i) resume_text); reflexivity.
Qed.

(** X14.  While the model fails, no run of the script changes the session
    state. *)
Theorem model_down_keeps_session (i : Interaction) (st : SessionState)
    (e : exn) :
  (forall messages, llm i messages = Raise e) ->
  state_of (run_script i st) = st.
Proof.
  intros Hdown.
  assert (Hspec : state_of (on_generate_spec i st) = st).
  { rewrite on_generate_spec_run.
    destruct (uploaded_resume i) as [f|]; [|reflexivity].
    destruct (extract_resume_text (Some f)) as [text|]; [|reflexivity].
    destruct (truthy (strip text)); [|reflexivity].
    unfold build_spec_from_resume. rewrite Hdown. reflexivity. }
  assert (Hsite : forall s, on_generate_site i s = (s, [], Raise e)).
  { intros s. apply on_generate_site_model_failure.
    unfold build_website_from_spec. rewrite Hdown. reflexivity. }
  unfold run_script, and_then, get.
  destruct (generate_spec_btn i).
  - unfold state_of in Hspec.
    destruct (on_generate_spec i st) as [[st1 fx1] [[]|e1]]; simpl in *;
      subst st1; [|reflexivity].
    destruct (truthy (spec_text st)); [|reflexivity].
    destruct (generate_site_btn i); [|reflexivity].
    rewrite Hsite. reflexivity.
  - cbn. destruct (truthy (spec_text st)); [|reflexivity].
    destruct (generate_site_btn i); [|reflexivity].
    rewrite Hsite. reflexivity.
Qed.

(** X15.  When the packager raises, the three new segments are already
    stored, the archive is the old one, no success message is shown and
    the exception ends the run. *)
Theorem packager_failure_leaves_new_site (i : Interaction)
    (st : SessionState) (w : website) :
  build_website_from_spec (llm i) (spec_text st) = Ok w ->
  all_nonempty w = true ->
  has_surrogate (html w ++ css w ++ js w) = true ->
  on_generate_site i st =
  (with_site st w,
   [Called_create_zip_bytes (html w) (css w) (js w)],
   Raise UnicodeEncodeError).
Proof.
  intros Hw Hb Hs. rewrite (on_generate_site_run i st w Hw), Hb. cbn zeta.
  pose proof (create_zip_bytes_outcome (html w) (css w) (js w)) as H.
  destruct (create_zip_bytes (html w) (css w) (js w)) as [z|e].
  - congruence.
  - destruct H as [-> _]. reflexivity.
Qed.

(** X16.  After a generation in which all three segments parsed and can be
    encoded, the stored archive reads back as the three stored texts. *)
Theorem fresh_archive_matches_session (i : Interaction) (st : SessionState)
    (w : website) :
  zipfile.lawful C ->
  build_website_from_spec (llm i) (spec_text st) = Ok w ->
  all_nonempty w = true ->
  has_surrogate (html w ++ css w ++ js w) = false ->
  exists (z bh bc bj : bytes),
    result_of (on_generate_site i st) = Ok tt /\
    zip_bytes (state_of (on_generate_site i st)) = Some z /\
    zipfile.read_archive z
    = Ok [(lit "index.html", bh); (lit "style.css", bc);
          (lit "script.js", bj)] /\
    encode_utf8 (html_code (state_of (on_generate_site i st))) = Ok bh /\
    encode_utf8 (css_code (state_of (on_generate_site i st))) = Ok bc /\
    encode_utf8 (js_code (state_of (on_generate_site i st))) = Ok bj.
Proof.
  intros Hlaw Hw Hb Hs. rewrite (on_generate_site_run i st w Hw), Hb.
  cbn zeta.
  pose proof (create_zip_bytes_outcome (html w) (css w) (js w)) as H.
  destruct (create_zip_bytes (html w) (css w) (js w)) as [z|e] eqn:Ez.
  - destruct (create_zip_bytes_inv _ _ _ _ Ez)
      as (bh & bc & bj & Eh & Ec & Ej & ->).
    eexists _, bh, bc, bj. cbn.
    split; [reflexivity|]. split; [reflexivity|].
    split; [apply Hlaw; repeat constructor|auto].
  - destruct H as [_ H]. congruence.
Qed.

(** X17.  An archive, once stored, is never removed: a run of the script
    keeps it or puts another one in its place. *)
Theorem archive_never_removed (i : Interaction) (st : SessionState)
    (z : bytes) :
  zip_bytes st = Some z ->
  exists z', zip_bytes (state_of (run_script i st)) = Some z'.
Proof.
  intros Hz.
  assert (Hsite : forall s, (exists z0, zip_bytes s = Some z0) ->
            exists z', zip_bytes (state_of (on_generate_site i s)) = Some z').
  { intros s [z0 Hs]. unfold on_generate_site, and_then, get, call.
    destruct (build_website_from_spec (llm i) (spec_text s)) as [w|];
      [|cbn; eauto].
    cbn.
    destruct (truthy (html w) && truthy (css w) && truthy (js w)); cbn;
      [|eauto].
    destruct (create_zip_bytes (html w) (css w) (js w)); cbn; eauto. }
  pose proof (on_generate_spec_zip_bytes i st) as Hspec.
  unfold run_script, and_then, get. unfold state_of in *.
  destruct (generate_spec_btn i).
  - destruct (on_generate_spec i st) as [[st1 fx1] [[]|e1]]; simpl in *;
      [|rewrite Hspec; eauto].
    destruct (truthy (spec_text st1)); [|cbn; rewrite Hspec; eauto].
    destruct (generate_site_btn i); [|cbn; rewrite Hspec; eauto].
    destruct (Hsite st1) as [z' Hz']; [rewrite Hspec; eauto|].
    destruct (on_generate_site i st1) as [[st2 fx2] r2]; simpl in *. eauto.
  - cbn. destruct (truthy (spec_text st)); [|cbn; eauto].
    destruct (generate_site_btn i); [|cbn; eauto].
    destruct (Hsite st) as [z' Hz']; [eauto|].
    destruct (on_generate_site i st) as [[st2 fx2] r2]; simpl in *. eauto.
Qed.

(** X18.  Whenever the page offers the download, its data is an archive
    that reads back as three members, [index.html], [style.css] and
    [script.js] in that order, none of them empty, offered under the
    name [portfolio_website.zip]. *)
Theorem download_is_a_readable_archive (st : SessionState)
    (label file_name mime : string) (data : bytes) :
  zipfile.lawful C ->
  reachable st ->
  In (Download_button label data file_name mime) (right_column st) ->
  file_name = "portfolio_website.zip"%string /\
  exists bh bc bj,
    zipfile.read_archive data
    = Ok [(lit "index.html", bh); (lit "style.css", bc);
          (lit "script.js", bj)] /\
    bh <> [] /\ bc <> [] /\ bj <> [].
Proof.
  intros Hlaw Hr.
  assert (Hp : packaged st).
  { induction Hr as [|i st Hr IH]; [exact Logic.I|].
    apply (run_script_keeps i st IH). }
  intros Hin. unfold packaged in Hp.
  assert (Hd : zip_bytes st = Some data /\
               file_name = "portfolio_website.zip"%string).
  { revert Hin. unfold right_column.
    destruct (truthy (html_code st)), (zip_bytes st) as [[|b d]|];
      simpl; intros H;
      repeat (destruct H as [E|H]; [try discriminate E|]);
      try destruct H.
    all: injection E as _ <- <- _; auto. }
  destruct Hd as [Hz ->]. split; [reflexivity|].
  rewrite Hz in Hp. destruct Hp as (h & c & j & Hh & Hc & Hj & Ez).
  destruct (create_zip_bytes_inv _ _ _ _ Ez)
    as (bh & bc & bj & Eh & Ec & Ej & ->).
  exists bh, bc, bj. split; [apply Hlaw; repeat constructor|].
  pose proof (encode_utf8_outcome h) as Oh. rewrite Eh in Oh.
  pose proof (encode_utf8_outcome c) as Oc. rewrite Ec in Oc.
  pose proof (encode_utf8_outcome j) as Oj. rewrite Ej in Oj.
  destruct Oh as [_ Oh], Oc as [_ Oc], Oj as [_ Oj]. auto.
Qed.

End MoreSession.

(** ** The link rewrite, again *)

Lemma length_join (sep : str) (pieces : list str) :
  length (join sep pieces)
  = list_sum (map (@length codepoint) pieces)
    + (length pieces - 1) * length sep.
Proof.
  induction pieces as [|p [|q rest] IH].
  - reflexivity.
  - simpl. lia.
  - rewrite join_cons by (simpl; lia).
    rewrite !length_app, IH. simpl map. simpl list_sum. simpl length.
    rewrite ?Nat.sub_0_r. simpl Nat.mul. lia.
Qed.

Lemma join_head_app (sep a b : str) (rest : list str) :
  join sep ((a ++ b) :: rest) = a ++ join sep (b :: rest).
Proof. destruct rest; simpl; [reflexivity|now rewrite <- app_assoc]. Qed.

Lemma join_map_prefix (sep x p0 : str) (rest : list str) :
  join sep (p0 :: map (app x) rest) = join (sep ++ x) (p0 :: rest).
Proof.
  revert p0; induction rest as [|q rest IH]; intros p0; [reflexivity|].
  change (map (app x) (q :: rest)) with ((x ++ q) :: map (app x) rest).
  rewrite (join_cons sep p0) by (simpl; lia).
  rewrite (join_cons (sep ++ x) p0) by (simpl; lia).
  rewrite IH, join_head_app. now rewrite <- !app_assoc.
Qed.

(** Where the first match is, and what follows it, after a replacement
    that starts with the old text. *)
Lemma find_after_replace (old x t s : str) (i : nat) :
  old <> [] -> find old s = Some i ->
  find old (firstn i s ++ old ++ x ++ t) = Some i.
Proof.
  intros Hold F. destruct (find_occurs _ _ _ F) as [Hocc Hlen].
  pose proof (find_least _ _ _ F) as Hmin.
  pose proof (occurs_at_split _ _ _ Hocc Hlen) as Hs.
  assert (Hi : length (firstn i s) = i) by (rewrite length_firstn; lia).
  apply find_complete.
  - unfold occurs_at. rewrite skipn_app, Hi, Nat.sub_diag.
    rewrite skipn_all2 by lia. simpl. apply starts_with_app.
  - intros k Hk Ho. apply (Hmin k Hk). unfold occurs_at in *.
    rewrite Hs. rewrite skipn_app in *.
    replace (k - length (firstn i s)) with 0 in * by lia. simpl skipn in *.
    rewrite app_assoc in *.
    rewrite starts_with_app_long in Ho by (rewrite length_app; lia).
    rewrite starts_with_app_long by (rewrite length_app; lia).
    exact Ho.
  - rewrite length_app. lia.
Qed.

(** The pieces of a rewritten text: the first piece of the source, then
    the other pieces, each after the injected text. *)
Lemma split_scan_replace (old x s : str) :
  old <> [] ->
  count_occurrences old x = 0 -> closed_on_the_right old x = true ->
  split_scan old 0 [] (replace_scan old (old ++ x) 0 s) =
  match split_scan old 0 [] s with
  | [] => []
  | p0 :: rest => p0 :: map (app x) rest
  end.
Proof.
  intros Hold Hfree Hclosed. induction s as [s IH] using str_length_ind.
  rewrite replace_scan_find, (split_scan_find old s) by assumption.
  destruct (find old s) as [i|] eqn:F.
  - set (r := skipn (i + length old) s) in *.
    rewrite <- !app_assoc.
    rewrite split_scan_find by assumption.
    rewrite (find_after_replace old x _ s i Hold F).
    assert (Hi : length (firstn i s) = i).
    { destruct (find_occurs _ _ _ F) as [_ Hlen].
      rewrite length_firstn; lia. }
    rewrite firstn_app, Hi, Nat.sub_diag, firstn_all2 by lia.
    simpl firstn. rewrite app_nil_r. f_equal.
    rewrite skipn_app, Hi.
    rewrite skipn_all2 by lia.
    replace (i + length old - i) with (length old) by lia.
    rewrite skipn_app, skipn_all, Nat.sub_diag. simpl skipn. simpl app.
    rewrite split_scan_before.
    + rewrite app_nil_r, split_scan_acc, rev_involutive.
      rewrite IH by (apply rest_shorter; assumption).
      pose proof (split_scan_length old 0 [] r) as Hl.
      destruct (split_scan old 0 [] r) as [|q0 qs]; [simpl in Hl; lia|].
      reflexivity.
    + intros k Hk. unfold occurs_at.
      rewrite starts_with_skipn_closed by assumption.
      apply count_occurrences_zero; assumption.
  - rewrite split_scan_find, F by assumption. reflexivity.
Qed.

Lemma rewrite_links_join (fragment : str) :
  rewrite_links fragment
  = join (ANCHOR ++ ANCHOR_ATTRS) (split_scan ANCHOR 0 [] fragment).
Proof.
  unfold rewrite_links, replace.
  change ANCHOR with (60%N :: [97%N; 32%N]) at 1.
  apply replace_scan_join; discriminate.
Qed.

Lemma rewrite_links_pieces (fragment : str) :
  split_scan ANCHOR 0 [] (rewrite_links fragment) =
  match split_scan ANCHOR 0 [] fragment with
  | [] => []
  | p0 :: rest => p0 :: map (app ANCHOR_ATTRS) rest
  end.
Proof.
  unfold rewrite_links, replace.
  change ANCHOR with (60%N :: [97%N; 32%N]) at 1.
  apply split_scan_replace; [discriminate|reflexivity|reflexivity].
Qed.

Lemma rewrite_links_length (fragment : str) :
  length (rewrite_links fragment)
  = length fragment + 42 * count_occurrences ANCHOR fragment.
Proof.
  rewrite rewrite_links_join.
  rewrite <- (join_split_scan ANCHOR fragment anchor_nonempty) at 2.
  rewrite !length_join, anchor_pieces_count.
  change (length (ANCHOR ++ ANCHOR_ATTRS)) with 45.
  change (length ANCHOR) with 3. lia.
Qed.

Lemma rewrite_links_count (fragment : str) :
  count_occurrences ANCHOR (rewrite_links fragment)
  = count_occurrences ANCHOR fragment.
Proof.
  pose proof (anchor_pieces_count (rewrite_links fragment)) as H1.
  pose proof (anchor_pieces_count fragment) as H2.
  rewrite rewrite_links_pieces in H1.
  destruct (split_scan ANCHOR 0 [] fragment) as [|p0 rest];
    [discriminate|].
  cbn [length] in H1, H2. rewrite length_map in H1.
  unfold str in *. congruence.
Qed.

(** X19.  The previewed document is longer than the fragment by the 286
    code points of the shell and 42 code points for each [<a ]. *)
Theorem sanitized_length (fragment : str) :
  length (sanitize_html_for_preview fragment)
  = 286 + length fragment + 42 * count_occurrences ANCHOR fragment.
Proof.
  unfold sanitize_html_for_preview. rewrite force_light_theme_shell.
  rewrite !length_app, rewrite_links_length.
  change (length shell_before) with 272.
  change (length shell_after) with 14. lia.
Qed.

(** X20.  The previewed document has as many occurrences of [<a ] as the
    fragment: the rewrite neither adds nor removes one, and the document
    shell brings none, on its own or across a seam. *)
Theorem preview_keeps_anchor_count (fragment : str) :
  count_occurrences ANCHOR (sanitize_html_for_preview fragment)
  = count_occurrences ANCHOR fragment.
Proof.
  unfold sanitize_html_for_preview. rewrite force_light_theme_shell.
  rewrite count_occurrences_app_right_closed by reflexivity.
  rewrite count_occurrences_app_left_closed
    by solve [apply anchor_nonempty | reflexivity].
  rewrite rewrite_links_count.
  change (count_occurrences ANCHOR shell_before) with 0.
  change (count_occurrences ANCHOR shell_after) with 0.
  lia.
Qed.

(** X21.  Rewriting a second time injects the attributes a second time
    after every [<a ]; the rewrite leaves its own output alone only when
    the fragment has no [<a ]. *)
Theorem rewrite_twice (fragment : str) :
  rewrite_links (rewrite_links fragment)
  = join (ANCHOR ++ ANCHOR_ATTRS ++ ANCHOR_ATTRS)
         (split_scan ANCHOR 0 [] fragment) /\
  (rewrite_links (rewrite_links fragment) = rewrite_links fragment <->
   count_occurrences ANCHOR fragment = 0).
Proof.
  split.
  - rewrite (rewrite_links_join (rewrite_links fragment)).
    rewrite rewrite_links_pieces.
    pose proof (split_scan_length ANCHOR 0 [] fragment) as Hl.
    destruct (split_scan ANCHOR 0 [] fragment) as [|p0 rest];
      [simpl in Hl; lia|].
    rewrite join_map_prefix. now rewrite <- app_assoc.
  - split.
    + intros E. apply (f_equal (@length _)) in E.
      rewrite !rewrite_links_length, rewrite_links_count in E. lia.
    + intros H0.
      assert (E : rewrite_links fragment = fragment).
      { rewrite rewrite_links_join.
        pose proof (anchor_pieces_count fragment) as Hn.
        pose proof (join_split_scan ANCHOR fragment anchor_nonempty) as Hj.
        rewrite H0 in Hn.
        destruct (split_scan ANCHOR 0 [] fragment) as [|p0 [|p1 rest]];
          simpl in Hn; try discriminate. exact Hj. }
      now rewrite !E.
Qed.

(** ** The further properties at the example inputs *)

Lemma extract_text_from_pdf_failure_witness :
  extract_text_from_pdf (L := strict_libs) damaged_pages
  = Raise (LibraryError "PdfReadError").
Proof.
  apply (extract_text_from_pdf_failure (L := strict_libs) damaged_pages
           [blit "one"] [xff] [blit "three"] [Some (lit "one")]);
    reflexivity.
Defined.

Lemma extract_text_from_pdf_pages_back_witness :
  exists text,
    extract_text_from_pdf (L := example_libs) three_pages = Ok text /\
    split text NL = Ok [lit "one"; []; lit "three"].
Proof.
  apply (extract_text_from_pdf_pages_back (L := example_libs) three_pages
           [blit "one"; []; blit "three"]
           [Some (lit "one"); None; Some (lit "three")]).
  - reflexivity.
  - reflexivity.
  - discriminate.
  - repeat (apply Forall_cons; [reflexivity|]). apply Forall_nil.
Defined.

Lemma extract_text_from_docx_join_witness :
  extract_text_from_docx (L := example_libs) (content legacy_doc)
  = Ok (join NL [lit "Jane"; lit "Doe"]) /\
  count_char 10%N (join NL [lit "Jane"; lit "Doe"]) = 1 + 0.
Proof.
  exact (extract_text_from_docx_join (L := example_libs)
           (content legacy_doc) [blit "Jane"; blit "Doe"] eq_refl).
Defined.

Lemma format_then_parse_witness :
  parse_raw sample_raw
  = Ok {| html := lit "<h1>Jane Doe</h1>";
          css := lit "h1 { color: teal; }";
          js := lit "console.log(1);" |}.
Proof.
  exact (format_then_parse (lit "<h1>Jane Doe</h1>")
           (lit "h1 { color: teal; }") (lit "console.log(1);")
           eq_refl eq_refl eq_refl eq_refl eq_refl eq_refl).
Defined.

Lemma block_found_anywhere_witness :
  extract_between MARKER_CSS chatty_raw = Ok (lit "p { margin: 0; }").
Proof.
  apply (block_found_anywhere MARKER_CSS
           (lit "Here is the stylesheet." ++ NL) (lit "p { margin: 0; }")
           (NL ++ lit "Enjoy!")).
  - right. left. reflexivity.
  - reflexivity.
  - right. exists (lit "Here is the stylesheet."). reflexivity.
  - reflexivity.
Defined.

Lemma unclosed_marker_gives_empty_witness :
  extract_between MARKER_CSS sample_raw_no_css = Ok [].
Proof.
  apply (unclosed_marker_gives_empty MARKER_CSS sample_raw_no_css 36).
  - discriminate.
  - reflexivity.
  - reflexivity.
Defined.

Lemma blank_segment_gives_empty_witness :
  extract_between MARKER_CSS sample_raw_blank_css = Ok [].
Proof.
  apply (blank_segment_gives_empty MARKER_CSS sample_raw_blank_css 36 48).
  - discriminate.
  - reflexivity.
  - reflexivity.
  - reflexivity.
Defined.

Lemma stored_segments_trimmed_witness :
  strip (html_code after_second_site) = html_code after_second_site /\
  strip (css_code after_second_site) = css_code after_second_site /\
  strip (js_code after_second_site) = js_code after_second_site.
Proof.
  apply (stored_segments_trimmed (L := example_libs) (C := example_codec)).
  apply (reachable_run (L := example_libs) (C := example_codec)).
  apply (reachable_run (L := example_libs) (C := example_codec)).
  apply (reachable_run (L := example_libs) (C := example_codec)).
  apply reachable_initial.
Defined.

Lemma generate_spec_blank_text_witness :
  on_generate_spec (L := example_libs)
    (press_generate_spec blank_resume (lit "Jane Doe, Software Engineer"))
    after_site
  = (after_site,
     [Shown_error
        "Could not extract text from the uploaded file. Check the format.";
      Shown_success "Website specification generated successfully."],
     Ok tt).
Proof.
  apply (generate_spec_blank_text (L := example_libs)
           (press_generate_spec blank_resume
              (lit "Jane Doe, Software Engineer"))
           after_site blank_resume (lit "  " ++ NL ++ lit " "));
    reflexivity.
Defined.

Lemma generate_spec_stores_answer_witness :
  on_generate_spec (L := example_libs)
    (press_generate_spec docx_resume (lit "Jane Doe, Software Engineer"))
    initial_session
  = (with_spec_text initial_session (lit "Jane Doe, Software Engineer"),
     [Shown_success "Website specification generated successfully."],
     Ok tt).
Proof.
  exact (generate_spec_stores_answer (L := example_libs)
           (press_generate_spec docx_resume
              (lit "Jane Doe, Software Engineer"))
           initial_session docx_resume
           (lit "Jane Doe" ++ NL ++ lit "Software Engineer")
           eq_refl eq_refl eq_refl).
Defined.

Lemma model_down_keeps_session_witness :
  state_of (run_script (L := example_libs) (C := example_codec)
              press_generate_site_failing after_site)
  = after_site.
Proof.
  apply (model_down_keeps_session (L := example_libs) (C := example_codec)
           press_generate_site_failing after_site
           (LibraryError "model call failed")).
  intros messages. reflexivity.
Defined.

Lemma packager_failure_leaves_new_site_witness :
  on_generate_site (C := example_codec)
    (press_generate_site sample_raw_surrogate) after_site
  = (with_site after_site
       {| html := lit "<h1>" ++ [55296%N] ++ lit "</h1>";
          css := lit "h1 { color: teal; }";
          js := lit "console.log(1);" |},
     [Called_create_zip_bytes (lit "<h1>" ++ [55296%N] ++ lit "</h1>")
        (lit "h1 { color: teal; }") (lit "console.log(1);")],
     Raise UnicodeEncodeError).
Proof.
  apply (packager_failure_leaves_new_site (C := example_codec)
           (press_generate_site sample_raw_surrogate) after_site
           {| html := lit "<h1>" ++ [55296%N] ++ lit "</h1>";
              css := lit "h1 { color: teal; }";
              js := lit "console.log(1);" |});
    reflexivity.
Defined.

Lemma fresh_archive_matches_session_witness :
  exists (z bh bc bj : bytes),
    result_of (on_generate_site (C := example_codec)
                 (press_generate_site sample_raw) session_with_spec)
    = Ok tt /\
    zip_bytes (state_of (on_generate_site (C := example_codec)
                 (press_generate_site sample_raw) session_with_spec))
    = Some z /\
    zipfile.read_archive (Codec := example_codec) z
    = Ok [(lit "index.html", bh); (lit "style.css", bc);
          (lit "script.js", bj)] /\
    encode_utf8 (html_code (state_of (on_generate_site (C := example_codec)
                 (press_generate_site sample_raw) session_with_spec)))
    = Ok bh /\
    encode_utf8 (css_code (state_of (on_generate_site (C := example_codec)
                 (press_generate_site sample_raw) session_with_spec)))
    = Ok bc /\
    encode_utf8 (js_code (state_of (on_generate_site (C := example_codec)
                 (press_generate_site sample_raw) session_with_spec)))
    = Ok bj.
Proof.
  apply (fresh_archive_matches_session (C := example_codec)
           (press_generate_site sample_raw) session_with_spec
           {| html := lit "<h1>Jane Doe</h1>";
              css := lit "h1 { color: teal; }";
              js := lit "console.log(1);" |}).
  - apply example_codec_lawful.
  - reflexivity.
  - reflexivity.
  - reflexivity.
Defined.

Lemma archive_never_removed_witness :
  exists z',
    zip_bytes (state_of (run_script (L := example_libs) (C := example_codec)
                           (press_generate_site sample_raw_again) after_site))
    = Some z'.
Proof.
  apply (archive_never_removed (L := example_libs) (C := example_codec)
           (press_generate_site sample_raw_again) after_site
           (zipfile.write_archive (Codec := example_codec)
              [(lit "index.html", blit "<h1>Jane Doe</h1>");
               (lit "style.css", blit "h1 { color: teal; }");
               (lit "script.js", blit "console.log(1);")])).
  reflexivity.
Defined.

Lemma download_is_a_readable_archive_witness :
  "portfolio_website.zip"%string = "portfolio_website.zip"%string /\
  exists bh bc bj,
    zipfile.read_archive (Codec := example_codec)
      (zipfile.write_archive (Codec := example_codec)
         [(lit "index.html", blit "<h1>Jane Doe</h1>");
          (lit "style.css", blit "h1 { color: teal; }");
          (lit "script.js", blit "console.log(1);")])
    = Ok [(lit "index.html", bh); (lit "style.css", bc);
          (lit "script.js", bj)] /\
    bh <> [] /\ bc <> [] /\ bj <> [].
Proof.
  apply (download_is_a_readable_archive (L := example_libs)
           (C := example_codec) after_second_site
           "Download Website ZIP" "portfolio_website.zip" "application/zip").
  - apply example_codec_lawful.
  - apply (reachable_run (L := example_libs) (C := example_codec)).
    apply (reachable_run (L := example_libs) (C := example_codec)).
    apply (reachable_run (L := example_libs) (C := example_codec)).
    apply reachable_initial.
  - vm_compute. do 3 right. left. reflexivity.
Defined.
